(** * AvicBotChat: the [avicbot.py] supervisor

    A shallow embedding of [src/avicbot.py] - the .env loader, the child
    spawner, the termination path and [main] - and the properties of its
    specification, each one proved or refuted on the embedding.

    Conventions of the model.
    - A Python [str] is a list of Unicode code points ([N]); a file holds
      bytes.  [str.strip], [str.splitlines], text-mode newline translation
      and the strict UTF-8 decoder follow CPython.
    - [os.environ] is a finite map from names to values ([gmap]).
      [setdefault] leaves a defined name alone and otherwise stores the
      pair, unless the interpreter refuses it: with [UnicodeEncodeError]
      when the name or the value has a character the filesystem encoding
      of the process cannot encode, with [ValueError] when one of them
      holds a NUL character.  Two things Windows adds are not modelled:
      the upper-casing of names and the limit on the length of a
      variable.
    - The command line is the list of option strings it is made of: the
      ones the parser declares and [-h], [--help], which [argparse] adds
      itself; abbreviations and unknown arguments are left to [argparse].
    - Everything the program asks of the operating system (what a path
      names, starting a process, waiting, polling, signalling) is answered
      by an [OS] record whose answers may depend on every call made so far;
      the calls are logged, with their outcomes, as [event]s.
    - Exceptions are values: a computation ends in [Return a] or [Raise e].
      An interrupt arrives inside a blocking call: [Popen] and [wait] in
      the [try] block of [main], the wait of 5 seconds in its handler. *)

From Stdlib Require Import NArith ZArith Lia.
From Stdlib Require Import Strings.String Strings.Ascii Strings.Byte.
From stdpp Require Import base option list gmap.

Set Default Proof Using "Type".
Local Open Scope N_scope.

(* ================================================================== *)
(** * Text: code points, whitespace, lines *)
(* ================================================================== *)

Module Text.

Abbreviation codepoint := N (only parsing).
Abbreviation str := (list N) (only parsing).

(** An ASCII literal read as a Python [str]. *)
Definition py (s : string) : str := map N_of_ascii (list_ascii_of_string s).

(** The bytes of an ASCII literal. *)
Definition bytes_of (s : string) : list byte := list_byte_of_string s.

Definition LF : codepoint := 10.
Definition CR : codepoint := 13.
Definition HASH : codepoint := 35.      (* # *)
Definition EQUALS : codepoint := 61.    (* = *)
Definition DQUOTE : codepoint := 34.    (* double quote *)
Definition SQUOTE : codepoint := 39.    (* single quote *)
Definition NUL : codepoint := 0.

Definition between (lo hi c : N) : bool := (lo <=? c) && (c <=? hi).

(** [str.isspace] on one code point: the characters [str.strip()] removes. *)
Definition isspace (c : codepoint) : bool :=
  between 9 13 c || between 28 31 c || (c =? 32) || (c =? 133) || (c =? 160)
  || (c =? 5760) || between 8192 8202 c || (c =? 8232) || (c =? 8233)
  || (c =? 8239) || (c =? 8287) || (c =? 12288).

(** The line boundaries of [str.splitlines]. *)
Definition islinebreak (c : codepoint) : bool :=
  between 10 13 c || between 28 30 c || (c =? 133) || (c =? 8232) || (c =? 8233).

Fixpoint lstrip (s : str) : str :=
  match s with
  | c :: r => if isspace c then lstrip r else s
  | [] => []
  end.

Definition rstrip (s : str) : str := rev (lstrip (rev s)).

(** [s.strip()] *)
Definition strip (s : str) : str := rstrip (lstrip s).

(** [s.splitlines()]: [cur] holds the current line, reversed.  A final line
    without terminator is kept unless it is empty; CR LF is one boundary. *)
Fixpoint splitlines_from (cur : str) (s : str) : list str :=
  match s with
  | [] => match cur with [] => [] | _ => [rev cur] end
  | c :: r =>
      if islinebreak c then
        rev cur ::
          match r with
          | d :: r' => if (c =? CR) && (d =? LF) then splitlines_from [] r'
                       else splitlines_from [] r
          | [] => splitlines_from [] r
          end
      else splitlines_from (c :: cur) r
  end.

Definition splitlines (s : str) : list str := splitlines_from [] s.

(** Reading in text mode with the default [newline=None]: CR LF and a lone
    CR both arrive as LF. *)
Fixpoint universal_newlines (s : str) : str :=
  match s with
  | [] => []
  | c :: r =>
      if c =? CR then
        LF :: match r with
              | d :: r' => if d =? LF then universal_newlines r'
                           else universal_newlines r
              | [] => universal_newlines r
              end
      else c :: universal_newlines r
  end.

(** [sep in s] for a one-character [sep]. *)
Definition contains (sep : codepoint) (s : str) : bool := existsb (N.eqb sep) s.

(** [s.startswith(c)] for a one-character prefix. *)
Definition startswith (c : codepoint) (s : str) : bool :=
  match s with
  | d :: _ => d =? c
  | [] => false
  end.

(** [s.split(sep, 1)] for a one-character [sep]: one or two pieces. *)
Fixpoint split1 (sep : codepoint) (s : str) : list str :=
  match s with
  | [] => [[]]
  | c :: r =>
      if c =? sep then [[]; r]
      else match split1 sep r with
           | h :: t => (c :: h) :: t
           | [] => [[c]]
           end
  end.

(** Strict UTF-8, as [bytes.decode("utf-8")]: no overlong forms, no
    surrogates, nothing above U+10FFFF. *)
Definition cont (b : N) : bool := between 128 191 b.

Definition second_ok (b0 b1 : N) : bool :=
  if b0 =? 224 then between 160 191 b1
  else if b0 =? 237 then between 128 159 b1
  else if b0 =? 240 then between 144 191 b1
  else if b0 =? 244 then between 128 143 b1
  else cont b1.

Fixpoint decode_from (bs : list N) : option str :=
  match bs with
  | [] => Some []
  | b0 :: r0 =>
      if b0 <? 128 then cons b0 <$> decode_from r0
      else if between 194 223 b0 then
        match r0 with
        | b1 :: r1 =>
            if cont b1
            then cons ((b0 - 192) * 64 + (b1 - 128)) <$> decode_from r1
            else None
        | _ => None
        end
      else if between 224 239 b0 then
        match r0 with
        | b1 :: b2 :: r2 =>
            if second_ok b0 b1 && cont b2
            then cons ((b0 - 224) * 4096 + (b1 - 128) * 64 + (b2 - 128))
                   <$> decode_from r2
            else None
        | _ => None
        end
      else if between 240 244 b0 then
        match r0 with
        | b1 :: b2 :: b3 :: r3 =>
            if second_ok b0 b1 && cont b2 && cont b3
            then cons ((b0 - 240) * 262144 + (b1 - 128) * 4096
                       + (b2 - 128) * 64 + (b3 - 128))
                   <$> decode_from r3
            else None
        | _ => None
        end
      else None
  end.

Definition decode_utf8 (bs : list byte) : option str :=
  decode_from (map Byte.to_N bs).

End Text.
Import Text.


(* ================================================================== *)
(** * Exceptions, the operating system, computations *)
(* ================================================================== *)

Module Py.

(** The exceptions that occur, under Python's [Exception] ... *)
Inductive Exception :=
  | FileNotFoundError (path : string)
  | IsADirectoryError
  | PermissionError
  | UnicodeDecodeError
  | UnicodeEncodeError
  | ValueError
  | ProcessLookupError
  | TimeoutExpired
  | OSError (errno : Z).

(** ... and under [BaseException] only: [except Exception] lets the last
    two through. *)
Inductive BaseException :=
  | Exc (e : Exception)
  | KeyboardInterrupt
  | SystemExit (code : Z).

Definition is_Exception (e : BaseException) : bool :=
  match e with Exc _ => true | _ => false end.

Definition is_KeyboardInterrupt (e : BaseException) : bool :=
  match e with KeyboardInterrupt => true | _ => false end.

Inductive result (E A : Type) :=
  | Return (a : A)
  | Raise (e : E).
Arguments Return {E A} a.
Arguments Raise {E A} e.

(** What a path names. *)
Inductive path_state :=
  | Absent
  | Directory
  | Unreadable                      (* a regular file that cannot be opened *)
  | Regular (content : list byte).

(** [Path.exists()], [Path.is_file()], [Path.read_text(encoding="utf-8")] *)
Definition exists_ (f : path_state) : bool :=
  match f with Absent => false | _ => true end.

Definition is_file (f : path_state) : bool :=
  match f with Regular _ | Unreadable => true | _ => false end.

Definition read_text (path : string) (f : path_state) : result Exception str :=
  match f with
  | Absent => Raise (FileNotFoundError path)
  | Directory => Raise IsADirectoryError
  | Unreadable => Raise PermissionError
  | Regular content =>
      match decode_utf8 content with
      | Some text => Return (universal_newlines text)
      | None => Raise UnicodeDecodeError
      end
  end.

(** What UTF-8 encodes, with [surrogateescape]: every character but a
    surrogate, and the surrogates U+DC80 to U+DCFF that stand for a byte. *)
Definition utf8_encodable (c : codepoint) : bool :=
  negb (between 55296 57343 c) || between 56448 56575 c.

(** What ASCII encodes, with [surrogateescape]. *)
Definition ascii_encodable (c : codepoint) : bool :=
  (c <? 128) || between 56448 56575 c.

Definition pid := nat.
Inductive signal := SIGTERM | SIGKILL.
Inductive stream := Stdout | Stderr.

(** One entry per call that reaches outside the program, with its outcome. *)
Inductive event :=
  | EvPrintVersion (text : string)
  | EvPrintHelp (to : stream)
  | EvPopen (script : string) (child_env : gmap str str)
            (start_new_session : bool) (r : result BaseException pid)
  | EvWait (p : pid) (r : result BaseException Z)
  | EvPoll (p : pid) (r : result Exception (option Z))
  | EvKillpg (p : pid) (sig : signal) (r : result Exception unit)
  | EvTerminate (p : pid) (r : result Exception unit)
  | EvWaitTimeout (p : pid) (timeout : Z) (r : result BaseException Z)
  | EvKill (p : pid) (r : result Exception unit).

(** The world outside.  Each answer may depend on the whole history.  The
    blocking calls ([Popen], [wait], [wait] with a timeout) can end in any
    [BaseException], the interrupt included; the polls and signals of the
    termination path return at once, or fail with an [Exception].
    [fsencodable] tells the characters the filesystem encoding of the
    process can encode, with the [surrogateescape] handler: all of them
    where names and values are not encoded at all, as on Windows. *)
Record OS := {
  nt : bool;                                   (* os.name == "nt" *)
  fs : string -> path_state;                   (* paths under ROOT *)
  fsencodable : N -> bool;                     (* sys.getfilesystemencoding() *)
  Popen_ : list event -> string -> gmap str str -> result BaseException pid;
  wait_ : list event -> pid -> result BaseException Z;
  poll_ : list event -> pid -> result Exception (option Z);
  killpg_ : list event -> pid -> signal -> result Exception unit;
  terminate_ : list event -> pid -> result Exception unit;
  wait_timeout_ : list event -> pid -> Z -> result BaseException Z;
  kill_ : list event -> pid -> result Exception unit
}.

(** The mutable state a run threads: [os.environ], the list [procs] of
    [main] (shared by its [try] body and its handler), the log. *)
Record state := State {
  environ : gmap str str;
  procs : list pid;
  events : list event
}.

Definition set_environ (st : state) (e : gmap str str) : state :=
  State e (procs st) (events st).
Definition set_procs (st : state) (ps : list pid) : state :=
  State (environ st) ps (events st).
Definition log (st : state) (e : event) : state :=
  State (environ st) (procs st) (events st ++ [e]).

Definition M (A : Type) : Type := state -> state * result BaseException A.

Definition ret {A} (a : A) : M A := fun st => (st, Return a).
Definition raise {A} (e : BaseException) : M A := fun st => (st, Raise e).
Definition bind {A B} (m : M A) (k : A -> M B) : M B :=
  fun st =>
    match m st with
    | (st', Return a) => k a st'
    | (st', Raise e) => (st', Raise e)
    end.

(** [try: body / except <catches>: handler] *)
Definition try_except {A} (catches : BaseException -> bool)
    (body handler : M A) : M A :=
  fun st =>
    match body st with
    | (st', Raise e) => if catches e then handler st' else (st', Raise e)
    | r => r
    end.

Definition emit (e : event) : M unit := fun st => (log st e, Return tt).

(** A call answered by the operating system, logged with its outcome. *)
Definition call {E A} (inj : E -> BaseException)
    (ask : list event -> result E A) (entry : result E A -> event) : M A :=
  fun st =>
    let r := ask (events st) in
    (log st (entry r),
     match r with Return a => Return a | Raise e => Raise (inj e) end).

Fixpoint for_each {A} (l : list A) (body : A -> M unit) : M unit :=
  match l with
  | [] => ret tt
  | x :: r => bind (body x) (fun _ => for_each r body)
  end.

End Py.
Import Py.

Notation "'do' x <- m ; k" := (bind m (fun x => k))
  (at level 10, x name, m at level 100, k at level 200, only parsing).
Notation "'exec' m ; k" := (bind m (fun _ => k))
  (at level 10, m at level 100, k at level 200, only parsing).

(* ================================================================== *)
(** * The program *)
(* ================================================================== *)

Module Avicbot.

(** ** [_load_dotenv] *)

(** [val[0]], [val[-1]], [val[1:-1]] *)
Definition first (s : str) : option codepoint := head s.
Definition final (s : str) : option codepoint := last s.
Definition inner (s : str) : str := removelast (tail s).

(** Lines 52-53: one matching pair of wrapping quotes is removed. *)
Definition unquote (val : str) : str :=
  match first val, final val with
  | Some a, Some b =>
      if (2 <=? length val)%nat && (a =? b)%N
         && ((a =? DQUOTE)%N || (a =? SQUOTE)%N)
      then inner val
      else val
  | _, _ => val
  end.

(** Lines 39-53, the loop body up to the store: [Return None] is
    [continue], [Return (Some (key, val))] reaches [setdefault].  The
    unpacking [key, val = ...] raises [ValueError] unless the split gave
    two pieces. *)
Definition parse_line (raw : str) : result Exception (option (str * str)) :=
  let line := strip raw in
  if bool_decide (line = []) || startswith HASH line then Return None
  else if negb (contains EQUALS line) then Return None
  else
    match split1 EQUALS line with
    | [key; val] =>
        let key := strip key in
        let val := strip val in
        if bool_decide (key = []) then Return None
        else Return (Some (key, unquote val))
    | _ => Raise ValueError
    end.

(** [os.fsencode(s)] succeeds: every character of [s] can be encoded. *)
Definition encodes (os : OS) (s : str) : bool := forallb (fsencodable os) s.

(** [os.environ.setdefault(key, val)].  The name is encoded to look it
    up, and a defined name is left alone.  Otherwise the value is encoded
    too and the pair goes to [putenv], which refuses a NUL character in
    either part.  A refusal stores nothing. *)
Definition setdefault (os : OS) (key val : str) : M unit :=
  fun st =>
    if negb (encodes os key) then (st, Raise (Exc UnicodeEncodeError))
    else
      match environ st !! key with
      | Some _ => (st, Return tt)
      | None =>
          if negb (encodes os val) then (st, Raise (Exc UnicodeEncodeError))
          else if contains NUL key || contains NUL val
          then (st, Raise (Exc ValueError))
          else (set_environ st (<[key:=val]> (environ st)), Return tt)
      end.

Definition lift {A} (r : result Exception A) : M A :=
  match r with
  | Return a => ret a
  | Raise e => raise (Exc e)
  end.

(** The [for raw in ...] loop of lines 38-55. *)
Fixpoint load_lines (os : OS) (lines : list str) : M unit :=
  match lines with
  | [] => ret tt
  | raw :: rest =>
      do kv <- lift (parse_line raw);
      match kv with
      | None => load_lines os rest
      | Some (key, val) => exec setdefault os key val; load_lines os rest
      end
  end.

Definition _load_dotenv (os : OS) (dotenv_path : string) : M unit :=
  let f := fs os dotenv_path in
  if negb (exists_ f) || negb (is_file f) then ret tt
  else
    do text <- lift (read_text dotenv_path f);
    load_lines os (splitlines text).

(** ** [_build_parser] and [parse_args] *)

(** The option strings the parser knows: the ones lines 65-79 declare and
    the two [ArgumentParser] adds by default ([add_help=True]). *)
Inductive option_string :=
  | Opt_h | Opt_help                  (* -h  --help *)
  | Opt_Twitch | Opt_twitch           (* --Twitch  --twitch *)
  | Opt_Wikimedia | Opt_wikimedia     (* --Wikimedia  --wikimedia *)
  | Opt_version.                      (* --version *)

Inductive dest := Dest_twitch | Dest_wikimedia.

Inductive action :=
  | help
  | store_true (d : dest)
  | version (text : string).

(** A parser, as far as [main] uses one: what each option string does. *)
Definition ArgumentParser : Type := option_string → action.

Definition _build_parser : ArgumentParser :=
  λ o, match o with
       | Opt_h | Opt_help => help
       | Opt_Twitch | Opt_twitch => store_true Dest_twitch
       | Opt_Wikimedia | Opt_wikimedia => store_true Dest_wikimedia
       | Opt_version => version "AvicBotChat 2026.02"
       end.

Record Namespace := { twitch : bool; wikimedia : bool }.

Definition store (d : dest) (ns : Namespace) : Namespace :=
  match d with
  | Dest_twitch => {| twitch := true; wikimedia := wikimedia ns |}
  | Dest_wikimedia => {| twitch := twitch ns; wikimedia := true |}
  end.

Definition print_help (parser : ArgumentParser) (to : stream) : M unit :=
  emit (EvPrintHelp to).

(** [parse_args] on a command line made of known options, handled left to
    right: [store_true] sets its destination; the help action prints the
    help on the output stream and the version action prints its text, and
    either one then exits with status 0. *)
Fixpoint parse_from (parser : ArgumentParser) (ns : Namespace)
    (argv : list option_string) : M Namespace :=
  match argv with
  | [] => ret ns
  | o :: rest =>
      match parser o with
      | help => exec print_help parser Stdout; raise (SystemExit 0)
      | store_true d => parse_from parser (store d ns) rest
      | version text => exec emit (EvPrintVersion text); raise (SystemExit 0)
      end
  end.

Definition parse_args (parser : ArgumentParser) (argv : list option_string)
    : M Namespace :=
  parse_from parser {| twitch := false; wikimedia := false |} argv.

(** ** [_spawn] *)

Definition _spawn (os : OS) (script_path : string) : M pid :=
  if negb (exists_ (fs os script_path)) then
    raise (Exc (FileNotFoundError script_path))
  else
    let start_new_session := negb (nt os) in
    fun st =>
      call id (fun evs => Popen_ os evs script_path (environ st))
           (EvPopen script_path (environ st) start_new_session) st.

(** ** [_terminate] *)

Definition poll (os : OS) (p : pid) : M (option Z) :=
  call Exc (fun evs => poll_ os evs p) (EvPoll p).
Definition killpg (os : OS) (p : pid) (sig : signal) : M unit :=
  call Exc (fun evs => killpg_ os evs p sig) (EvKillpg p sig).
Definition terminate (os : OS) (p : pid) : M unit :=
  call Exc (fun evs => terminate_ os evs p) (EvTerminate p).
Definition kill (os : OS) (p : pid) : M unit :=
  call Exc (fun evs => kill_ os evs p) (EvKill p).
Definition wait_timeout (os : OS) (p : pid) (timeout : Z) : M Z :=
  call id (fun evs => wait_timeout_ os evs p timeout) (EvWaitTimeout p timeout).
Definition wait (os : OS) (p : pid) : M Z :=
  call id (fun evs => wait_ os evs p) (EvWait p).

Definition _terminate (os : OS) (proc : pid) : M unit :=
  try_except is_Exception
    (do rc <- poll os proc;
     match rc with
     | Some _ => ret tt
     | None =>
         if nt os then terminate os proc
         else killpg os proc SIGTERM
     end)
    (try_except is_Exception (terminate os proc) (ret tt)).

(** ** [main] *)

Definition get_procs : M (list pid) := fun st => (st, Return (procs st)).
Definition procs_append (p : pid) : M unit :=
  fun st => (set_procs st (procs st ++ [p]), Return tt).
Definition procs_init : M unit := fun st => (set_procs st [], Return tt).

(** Lines 139-144. *)
Fixpoint wait_loop (os : OS) (ps : list pid) (exit_code : Z) : M Z :=
  match ps with
  | [] => ret exit_code
  | p :: rest =>
      do rc <- wait os p;
      if negb (rc =? 0)%Z && (exit_code =? 0)%Z
      then wait_loop os rest rc
      else wait_loop os rest exit_code
  end.

(** [if requested: procs.append(_spawn(script_path))] *)
Definition spawn_if (os : OS) (requested : bool) (script_path : string) : M unit :=
  if requested
  then do p <- _spawn os script_path; procs_append p
  else ret tt.

(** Lines 133-136: first the Twitch bot, then the Wikimedia bot. *)
Definition spawn_requested (os : OS) (args : Namespace) : M unit :=
  exec spawn_if os (twitch args) "twitch.py";
  spawn_if os (wikimedia args) "avicbotirc.py".

(** Lines 139-144: wait for all children. *)
Definition wait_all (os : OS) : M Z :=
  do ps <- get_procs;
  wait_loop os ps 0%Z.

(** Lines 133-144, the body of the [try]. *)
Definition main_try (os : OS) (args : Namespace) : M Z :=
  exec spawn_requested os args;
  wait_all os.

(** Lines 150-159, for one child: [except Exception] takes the forced
    kill after a wait that failed, and lets an interrupt of the wait
    through. *)
Definition reap (os : OS) (p : pid) : M unit :=
  try_except is_Exception
    (exec wait_timeout os p 5%Z; ret tt)
    (try_except is_Exception
       (if nt os then kill os p else killpg os p SIGKILL)
       (ret tt)).

(** Lines 147-160, the [except KeyboardInterrupt] handler. *)
Definition main_except (os : OS) : M Z :=
  do ps <- get_procs;
  exec for_each ps (_terminate os);
  exec for_each ps (reap os);
  ret 130%Z.

Definition main (os : OS) (argv : list option_string) : M Z :=
  do args <- parse_args _build_parser argv;
  exec _load_dotenv os ".env";
  if negb (twitch args) && negb (wikimedia args) then
    exec print_help _build_parser Stderr;
    ret 2%Z
  else
    exec procs_init;
    try_except is_KeyboardInterrupt (main_try os args) (main_except os).

(** Lines 121-124 on their own: what [main] does before it looks at the
    flags. *)
Definition startup (os : OS) (argv : list option_string) : M Namespace :=
  do args <- parse_args _build_parser argv;
  exec _load_dotenv os ".env";
  ret args.

End Avicbot.
Import Avicbot.

(* ================================================================== *)
(** * The vocabulary of the specification *)
(* ================================================================== *)

Module Spec.

(** ** Environment loader *)




(** What [os.environ] accepts as a new variable: a name and a value it
    can encode, without a NUL character. *)
Definition storable (os : OS) (key val : str) : bool :=
  encodes os key && encodes os val
  && negb (contains NUL key || contains NUL val).

(** What [os.environ.setdefault(key, val)] raises in the environment
    [env], if anything: [UnicodeEncodeError] for a name it cannot encode
    and, when the name is not defined, for a value it cannot encode;
    [ValueError] for a new name, or a value for it, with a NUL character. *)
Definition refusal (os : OS) (env : gmap str str) (key val : str)
    : option Exception :=
  if negb (encodes os key) then Some UnicodeEncodeError
  else
    match env !! key with
    | Some _ => None
    | None =>
        if negb (encodes os val) then Some UnicodeEncodeError
        else if contains NUL key || contains NUL val then Some ValueError
        else None
    end.


(** The physical lines the loader sees in a file: none when there is no
    regular file or it cannot be read as UTF-8 text. *)
Definition file_lines (path : string) (f : path_state) : list str :=
  if exists_ f && is_file f then
    match read_text path f with
    | Return text => splitlines text
    | Raise _ => []
    end
  else [].

(** The value on the earliest valid line that defines [key]. *)
Fixpoint earliest_definition (key : str) (lines : list str) : option str :=
  match lines with
  | [] => None
  | raw :: rest =>
      match parse_line raw with
      | Return (Some (k, v)) =>
          if bool_decide (k = key) then Some v
          else earliest_definition key rest
      | _ => earliest_definition key rest
      end
  end.

(** ** Supervisor *)

(** "0 when all children exit 0, and otherwise the first non-zero exit
    code observed" *)
Fixpoint aggregate_result (rcs : list Z) : Z :=
  match rcs with
  | [] => 0
  | rc :: rest => if (rc =? 0)%Z then aggregate_result rest else rc
  end.

(** Waited on in this order from history [evs], the children [ps] exit
    with the codes [rcs]; [evs'] is the history afterwards. *)
Inductive exits_with (os : OS) :
    list event → list pid → list Z → list event → Prop :=
  | exits_nil evs : exits_with os evs [] [] evs
  | exits_cons evs p ps rc rcs evs' :
      wait_ os evs p = Return rc →
      exits_with os (evs ++ [EvWait p (Return rc)]) ps rcs evs' →
      exits_with os evs (p :: ps) (rc :: rcs) evs'.

(** The waits for [ps], in order, all returning. *)
Definition waits (ps : list pid) (rcs : list Z) : list event :=
  zip_with (λ p rc, EvWait p (Return rc)) ps rcs.

Inductive child := Twitch | Wikimedia.

Definition script (c : child) : string :=
  match c with
  | Twitch => "twitch.py"
  | Wikimedia => "avicbotirc.py"
  end.

Definition child_of (d : dest) : child :=
  match d with
  | Dest_twitch => Twitch
  | Dest_wikimedia => Wikimedia
  end.

(** The child an option string asks for, if it is a child flag. *)
Definition names (o : option_string) : option child :=
  match _build_parser o with
  | store_true d => Some (child_of d)
  | help | version _ => None
  end.

Definition same_child (a b : child) : bool :=
  match a, b with
  | Twitch, Twitch | Wikimedia, Wikimedia => true
  | _, _ => false
  end.

(** The children in the order their flags first appear on the command
    line. *)
Fixpoint request_order_from (seen : list child) (argv : list option_string)
    : list child :=
  match argv with
  | [] => []
  | o :: rest =>
      match names o with
      | Some c =>
          if existsb (same_child c) seen then request_order_from seen rest
          else c :: request_order_from (c :: seen) rest
      | None => request_order_from seen rest
      end
  end.

Definition request_order (argv : list option_string) : list child :=
  request_order_from [] argv.

(** The script a process was started from, read off the log. *)
Fixpoint started_from (evs : list event) (p : pid) : option string :=
  match evs with
  | [] => None
  | EvPopen s _ _ (Return q) :: rest =>
      if Nat.eqb p q then Some s else started_from rest p
  | _ :: rest => started_from rest p
  end.

(** The scripts whose processes [p.wait()] blocked on, in order. *)
Definition wait_order (evs : list event) : list string :=
  omap (λ e, match e with
             | EvWait p _ => started_from evs p
             | _ => None
             end) evs.

(** Entries of the wait phase and of the termination path. *)
Definition waits_or_cleans (e : event) : bool :=
  match e with
  | EvWait _ _ | EvPoll _ _ | EvKillpg _ _ _ | EvTerminate _ _
  | EvWaitTimeout _ _ _ | EvKill _ _ => true
  | _ => false
  end.

Definition spawns (e : event) : bool :=
  match e with EvPopen _ _ _ _ => true | _ => false end.

(** The request to stop child [p] and the forced kill, per platform. *)
Definition stop_request (os : OS) (p : pid) (r : result Exception unit) : event :=
  if nt os then EvTerminate p r else EvKillpg p SIGTERM r.
Definition forced_kill (os : OS) (p : pid) (r : result Exception unit) : event :=
  if nt os then EvKill p r else EvKillpg p SIGKILL r.

(** What the operating system answers, at history [evs], to the request
    to stop child [p] and to its forced kill. *)
Definition stop_answer (os : OS) (p : pid) (evs : list event)
    : result Exception unit :=
  if nt os then terminate_ os evs p else killpg_ os evs p SIGTERM.
Definition kill_answer (os : OS) (p : pid) (evs : list event)
    : result Exception unit :=
  if nt os then kill_ os evs p else killpg_ os evs p SIGKILL.

(** From history [evs], the entries [seg] are what [_terminate] leaves for
    child [p]: a poll; when the poll finds the child running, the request
    to stop; and [proc.terminate()] as the fallback when the poll or the
    request fails. *)
Definition stops (os : OS) (p : pid) (evs seg : list event) : Prop :=
  let polled := EvPoll p (poll_ os evs p) in
  let fallback h := EvTerminate p (terminate_ os h p) in
  match poll_ os evs p with
  | Return (Some _) => seg = [polled]
  | Return None =>
      let answer := stop_answer os p (evs ++ [polled]) in
      let asked := stop_request os p answer in
      match answer with
      | Return _ => seg = [polled; asked]
      | Raise _ => seg = [polled; asked; fallback (evs ++ [polled; asked])]
      end
  | Raise _ => seg = [polled; fallback (evs ++ [polled])]
  end.

(** The wait of 5 seconds for child [p] at history [evs] ends in
    something [except Exception] does not catch - an interrupt. *)
Definition breaks (os : OS) (p : pid) (evs : list event)
    : option BaseException :=
  match wait_timeout_ os evs p 5 with
  | Raise e => if is_Exception e then None else Some e
  | Return _ => None
  end.

(** No wait of 5 seconds is ever cut short. *)
Definition grace_uninterrupted (os : OS) : Prop :=
  ∀ evs p, breaks os p evs = None.

(** From history [evs], the entries [seg] are a wait of 5 seconds for
    child [p], followed by the forced kill exactly when the wait fails
    with an [Exception]. *)
Definition reaps (os : OS) (p : pid) (evs seg : list event) : Prop :=
  let waited := EvWaitTimeout p 5 (wait_timeout_ os evs p 5) in
  match wait_timeout_ os evs p 5 with
  | Return _ => seg = [waited]
  | Raise e =>
      if is_Exception e
      then seg = [waited; forced_kill os p (kill_answer os p (evs ++ [waited]))]
      else seg = [waited]
  end.

(** The first loop of the handler, over the children [ps]: between the
    histories [evs] and [evs'] lies what [_terminate] leaves for each
    child, in order. *)
Inductive stop_round (os : OS) : list pid → list event → list event → Prop :=
  | stop_round_nil evs : stop_round os [] evs evs
  | stop_round_cons p ps evs seg evs' :
      stops os p evs seg →
      stop_round os ps (evs ++ seg) evs' →
      stop_round os (p :: ps) evs evs'.

(** The second loop: a wait of 5 seconds, and the kill it may call for,
    child by child - up to the first wait that is cut short by some [e],
    which ends the loop ([Some e]); no child after that one is waited on or
    killed. *)
Inductive grace_round (os : OS) :
    list pid → list event → list event → option BaseException → Prop :=
  | grace_round_nil evs : grace_round os [] evs evs None
  | grace_round_cons p ps evs seg evs' b :
      breaks os p evs = None →
      reaps os p evs seg →
      grace_round os ps (evs ++ seg) evs' b →
      grace_round os (p :: ps) evs evs' b
  | grace_round_break p ps evs e :
      breaks os p evs = Some e →
      grace_round os (p :: ps) evs
        (evs ++ [EvWaitTimeout p 5 (Raise e)]) (Some e).

(** The termination path ran over the children [ps] between the histories
    [evs] and [evs'] and ended in [r]: first the stop requests for all of
    them, then the waits and kills; 130 when the second loop gets to its
    end. *)
Definition drained (os : OS) (ps : list pid) (evs evs' : list event)
    (r : result BaseException Z) : Prop :=
  ∃ mid b,
    stop_round os ps evs mid
    ∧ grace_round os ps mid evs' b
    ∧ r = match b with None => Return 130%Z | Some e => Raise e end.

(** What the first option that ends the run prints: the help for [-h] and
    [--help], the version for [--version].  [None] when the command line
    holds neither. *)
Fixpoint exit_option (argv : list option_string) : option event :=
  match argv with
  | [] => None
  | o :: rest =>
      match _build_parser o with
      | help => Some (EvPrintHelp Stdout)
      | store_true _ => exit_option rest
      | version text => Some (EvPrintVersion text)
      end
  end.

(** A flag for child [c] occurs in [argv]. *)
Definition mentions (c : child) (argv : list option_string) : bool :=
  existsb (λ o, match names o with
                | Some d => same_child c d
                | None => false
                end) argv.

(** ** Sentences as they stand *)


(** "If an interrupt is received by the supervisor while it is waiting on
    its children, then for every set of spawned children and every partial
    aggregate result accumulated so far, the supervisor [...] returns exit
    code 130" *)
Definition interrupt_returns_130 : Prop :=
  ∀ (os : OS) (argv : list option_string) (st st1 st2 st3 : state)
    (args : Namespace) (before after : list pid) (p : pid) (code : Z),
    startup os argv st = (st1, Return args) →
    spawn_requested os args (set_procs st1 []) = (st2, Return tt) →
    procs st2 = before ++ p :: after →
    wait_loop os before 0 st2 = (st3, Return code) →
    wait_ os (events st3) p = Raise KeyboardInterrupt →
    ∃ st4, main os argv st = (st4, Return 130%Z).

(** "For every set of live Child Descriptors and every outcome of the
    underlying signal/wait operations (including any of them failing), the
    Termination Coordinator never raises" *)
Definition termination_never_raises : Prop :=
  ∀ (os : OS) (st : state), ∃ st' rc, main_except os st = (st', Return rc).

(** "For every invocation in which neither child flag is given, the
    supervisor prints usage/help to the error stream, returns exit code 2,
    and never spawns any child process." *)
Definition usage_without_flags : Prop :=
  ∀ (os : OS) (argv : list option_string) (st : state),
    request_order argv = [] →
    ∃ st', main os argv st = (st', Return 2%Z)
      ∧ events st' = events st ++ [EvPrintHelp Stderr].

(** "for every flag ordering, the wait order matches the request order" *)
Definition waits_in_request_order : Prop :=
  ∀ (os : OS) (argv : list option_string) (env : gmap (list N) (list N))
    (st' : state) (rc : Z),
    length (request_order argv) = 2%nat →
    main os argv (State env [] []) = (st', Return rc) →
    NoDup (procs st') →
    wait_order (events st') = script <$> request_order argv.

End Spec.
Import Spec.

(* ================================================================== *)
(** * Sample worlds *)
(* ================================================================== *)

Module Worlds.

Definition nl : string := String "010"%char EmptyString.
Definition dq : string := String "034"%char EmptyString.

(** The line of the specification's example. *)
Definition quoted_line : string := "KEY=" ++ dq ++ "value with spaces" ++ dq.

(** A configuration file: a quoted value, a comment, a name defined twice,
    a line without [=], a line without a key. *)
Definition sample_dotenv : list byte :=
  bytes_of (quoted_line ++ nl ++ "# note" ++ nl ++ "A = 1" ++ nl ++ "A=2"
            ++ nl ++ "orphan" ++ nl ++ " =x" ++ nl).

(** A POSIX machine with UTF-8 as its encoding.  Process ids count up with
    the log; every child is
    found running when polled; child 0 leaves within the grace period and
    the others do not; the group of a child is gone by the time SIGKILL is
    sent. *)
Definition world (dotenv twitch_py avicbotirc_py : path_state)
    (exit_of : pid → result BaseException Z) : OS := {|
  nt := false;
  fsencodable := utf8_encodable;
  fs := λ path,
    if String.eqb path ".env" then dotenv
    else if String.eqb path "twitch.py" then twitch_py
    else if String.eqb path "avicbotirc.py" then avicbotirc_py
    else Absent;
  Popen_ := λ evs _ _, Return (length evs);
  wait_ := λ _ p, exit_of p;
  poll_ := λ _ _, Return None;
  killpg_ := λ _ _ sig,
    match sig with
    | SIGTERM => Return tt
    | SIGKILL => Raise ProcessLookupError
    end;
  terminate_ := λ _ _, Return tt;
  wait_timeout_ := λ _ p _,
    if Nat.eqb p 0 then Return (-15)%Z else Raise (Exc TimeoutExpired);
  kill_ := λ _ _, Return tt
|}.

Definition fresh : state := State ∅ [] [].

(** Both scripts in place, no .env; the first child exits 0, the second 5. *)
Definition both_exit : OS :=
  world Absent (Regular []) (Regular [])
        (λ p, Return (if Nat.eqb p 0 then 0 else 5)%Z).

(** The first child exits 3; the wait for the second is interrupted. *)
Definition interrupted : OS :=
  world Absent (Regular []) (Regular [])
        (λ p, if Nat.eqb p 0 then Return 3%Z else Raise KeyboardInterrupt).

(** [avicbotirc.py] is missing. *)
Definition no_wikimedia : OS :=
  world Absent (Regular []) Absent (λ _, Return 0%Z).

(** The .env file is not UTF-8. *)
Definition bad_dotenv : OS :=
  world (Regular [xff]) (Regular []) (Regular []) (λ _, Return 0%Z).

Definition with_dotenv : OS :=
  world (Regular sample_dotenv) (Regular []) (Regular []) (λ _, Return 0%Z).

(** A configuration file whose first line holds a NUL character in its
    value. *)
Definition nul : string := String "000"%char EmptyString.

Definition nul_dotenv : list byte :=
  bytes_of ("A=" ++ nul ++ "x" ++ nl ++ "B=2" ++ nl).

Definition with_nul_dotenv : OS :=
  world (Regular nul_dotenv) (Regular []) (Regular []) (λ _, Return 0%Z).

(** The same machine as [os] under the C locale, where the encoding is
    ASCII. *)
Definition under_C_locale (os : OS) : OS := {|
  nt := nt os;
  fs := fs os;
  fsencodable := ascii_encodable;
  Popen_ := Popen_ os;
  wait_ := wait_ os;
  poll_ := poll_ os;
  killpg_ := killpg_ os;
  terminate_ := terminate_ os;
  wait_timeout_ := wait_timeout_ os;
  kill_ := kill_ os
|}.

(** A configuration file with a value that is not ASCII. *)
Definition euro_dotenv : list byte :=
  bytes_of "PRICE=" ++ [xe2; x82; xac] ++ bytes_of (nl ++ "B=2" ++ nl).

Definition with_euro_dotenv : OS :=
  world (Regular euro_dotenv) (Regular []) (Regular []) (λ _, Return 0%Z).

(** The same machine as [os], with a user who presses the interrupt key
    again whenever the handler waits for a child. *)
Definition impatient (os : OS) : OS := {|
  nt := nt os;
  fs := fs os;
  fsencodable := fsencodable os;
  Popen_ := Popen_ os;
  wait_ := wait_ os;
  poll_ := poll_ os;
  killpg_ := killpg_ os;
  terminate_ := terminate_ os;
  wait_timeout_ := λ _ _ _, Raise KeyboardInterrupt;
  kill_ := kill_ os
|}.

(** The first child exits 3, the wait for the second is interrupted, and
    so is the first wait of the handler. *)
Definition interrupted_twice : OS := impatient interrupted.

End Worlds.
Import Worlds.

(* ================================================================== *)
(** * Reading a log *)
(* ================================================================== *)

Module Observations.

(** The process a log entry is about. *)
Definition target (e : event) : option pid :=
  match e with
  | EvWait p _ | EvPoll p _ | EvKillpg p _ _ | EvTerminate p _
  | EvWaitTimeout p _ _ | EvKill p _ => Some p
  | _ => None
  end.

Definition prints (e : event) : bool :=
  match e with EvPrintVersion _ | EvPrintHelp _ => true | _ => false end.

(** Entries of the termination path: polls, signals, timed waits, kills. *)
Definition cleans (e : event) : bool :=
  match e with
  | EvPoll _ _ | EvKillpg _ _ _ | EvTerminate _ _
  | EvWaitTimeout _ _ _ | EvKill _ _ => true
  | _ => false
  end.

Definition awaits (e : event) : bool :=
  match e with EvWait _ _ => true | _ => false end.

(** What [_terminate] can log, and what the grace loop can log. *)
Definition stop_phase (e : event) : bool :=
  match e with
  | EvPoll _ _ | EvTerminate _ _ | EvKillpg _ SIGTERM _ => true
  | _ => false
  end.

Definition grace_phase (e : event) : bool :=
  match e with
  | EvWaitTimeout _ _ _ | EvKill _ _ | EvKillpg _ SIGKILL _ => true
  | _ => false
  end.

(** The child a forced kill is aimed at. *)
Definition forced (e : event) : option pid :=
  match e with
  | EvKill p _ | EvKillpg p SIGKILL _ => Some p
  | _ => None
  end.

(** The processes [Popen] handed out, the scripts it was called on, the
    exit codes [wait] returned, the children polled and the timed waits,
    each in log order. *)
Definition started (evs : list event) : list pid :=
  omap (λ e, match e with EvPopen _ _ _ (Return p) => Some p | _ => None end) evs.

Definition scripts_of (evs : list event) : list string :=
  omap (λ e, match e with EvPopen s _ _ _ => Some s | _ => None end) evs.

Definition exit_codes (evs : list event) : list Z :=
  omap (λ e, match e with EvWait _ (Return rc) => Some rc | _ => None end) evs.

Definition polled (evs : list event) : list pid :=
  omap (λ e, match e with EvPoll p _ => Some p | _ => None end) evs.

Definition grace_waits (evs : list event) : list (pid * Z) :=
  omap (λ e, match e with EvWaitTimeout p t _ => Some (p, t) | _ => None end) evs.

(** A blocking call of the [try] block was interrupted. *)
Definition saw_interrupt (evs : list event) : bool :=
  existsb (λ e, match e with
                | EvWait _ (Raise KeyboardInterrupt)
                | EvPopen _ _ _ (Raise KeyboardInterrupt) => true
                | _ => false
                end) evs.

(** What [_terminate] logs for child [p]: one poll of [p] and otherwise
    only requests to stop, all aimed at [p]. *)
Definition stop_entries (p : pid) (seg : list event) : Prop :=
  polled seg = [p]
  ∧ Forall (λ e, stop_phase e = true ∧ target e = Some p) seg.

(** What the grace loop logs for child [p]: a wait of 5 seconds that
    returns, one that fails followed by the forced kill, or one that is
    cut short. *)
Definition grace_entries (os : OS) (p : pid) (seg : list event) : Prop :=
  (∃ rc, seg = [EvWaitTimeout p 5 (Return rc)])
  ∨ (∃ x o, seg = [EvWaitTimeout p 5 (Raise (Exc x)); forced_kill os p o])
  ∨ (∃ e, is_Exception e = false ∧ seg = [EvWaitTimeout p 5 (Raise e)]).

(** The scripts a parsed command line asks for, in the order [main] takes
    them. *)
Definition wanted (args : Namespace) : list string :=
  (if twitch args then ["twitch.py"%string] else [])
  ++ (if wikimedia args then ["avicbotirc.py"%string] else []).

(** The same, read off the command line itself. *)
Definition requested_scripts (argv : list option_string) : list string :=
  (if mentions Twitch argv then ["twitch.py"%string] else [])
  ++ (if mentions Wikimedia argv then ["avicbotirc.py"%string] else []).

(** The new part of a log of [main], read as four phases: what start-up
    printed, the spawns, the blocking waits, the clean-up.  Every child is
    spawned with the environment as the .env load left it, and only after
    that load has returned; waits and clean-up are aimed at children this
    run started. *)
Definition phases (os : OS) (argv : list option_string) (st : state)
    (pre sp ws cl : list event) : Prop :=
  Forall (λ e, prints e = true) pre
  ∧ Forall (λ e, ∃ s o,
              e = EvPopen s (environ (_load_dotenv os ".env" st).1)
                    (negb (nt os)) o) sp
  ∧ (sp ≠ [] → (_load_dotenv os ".env" st).2 = Return tt)
  ∧ scripts_of sp `prefix_of` requested_scripts argv
  ∧ Forall (λ e, ∃ p o, e = EvWait p o ∧ p ∈ started sp) ws
  ∧ Forall (λ e, cleans e = true ∧ ∃ p, target e = Some p ∧ p ∈ started sp) cl.

(** How the phases account for the way [main] ends. *)
Definition outcome (argv : list option_string) (pre sp ws cl : list event)
    (r : result BaseException Z) : Prop :=
  match r with
  | Raise x =>
      cl = [] ∨ (saw_interrupt (sp ++ ws) = true ∧ is_Exception x = false)
  | Return rc =>
      (requested_scripts argv = [] ∧ rc = 2%Z
       ∧ pre = [EvPrintHelp Stderr] ∧ sp = [] ∧ ws = [] ∧ cl = [])
      ∨ (saw_interrupt (sp ++ ws) = true ∧ rc = 130%Z)
      ∨ (pre = [] ∧ cl = [] ∧ saw_interrupt (sp ++ ws) = false
         ∧ requested_scripts argv ≠ []
         ∧ scripts_of sp = requested_scripts argv
         ∧ length (started sp) = length sp
         ∧ length (exit_codes ws) = length sp
         ∧ rc = aggregate_result (exit_codes ws))
  end.

(** A name as the loader stores it: not empty, without [=], without
    whitespace at either end. *)
Definition well_formed_name (key : list N) : Prop :=
  key ≠ [] ∧ contains EQUALS key = false ∧ strip key = key.

(** A machine on which the second [Popen] is interrupted. *)
Definition interrupted_spawn : OS := {|
  nt := false;
  fs := λ _, Regular [];
  fsencodable := utf8_encodable;
  Popen_ := λ evs _ _,
    match evs with
    | [] => Return 7%nat
    | _ => Raise KeyboardInterrupt
    end;
  wait_ := λ _ _, Return 0%Z;
  poll_ := λ _ _, Return None;
  killpg_ := λ _ _ _, Return tt;
  terminate_ := λ _ _, Return tt;
  wait_timeout_ := λ _ _ _, Return 0%Z;
  kill_ := λ _ _, Return tt
|}.

(** A Windows machine on which nothing asked of a child works. *)
Definition stubborn_nt : OS := {|
  nt := true;
  fs := λ _, Regular [];
  fsencodable := λ _, true;
  Popen_ := λ evs _ _, Return (length evs);
  wait_ := λ _ _, Raise KeyboardInterrupt;
  poll_ := λ _ _, Return None;
  killpg_ := λ _ _ _, Raise (OSError 1);
  terminate_ := λ _ _, Raise PermissionError;
  wait_timeout_ := λ _ _ _, Raise (Exc TimeoutExpired);
  kill_ := λ _ _, Raise PermissionError
|}.

End Observations.
Import Observations.

(* ================================================================== *)
(** * Facts about text *)
(* ================================================================== *)

Section text_facts.
Implicit Types (s r k v : str) (c : codepoint).

Lemma lstrip_snoc s c : isspace c = false → lstrip (s ++ [c]) = lstrip s ++ [c].
Proof.
  intros Hc. induction s as [|d s IH]; simpl.
  - by rewrite Hc.
  - destruct (isspace d); [exact IH | done].
Qed.

Lemma rstrip_cons s c : isspace c = false → rstrip (c :: s) = c :: rstrip s.
Proof.
  intros Hc. unfold rstrip. simpl.
  by rewrite (lstrip_snoc _ _ Hc), rev_unit.
Qed.

Lemma lstrip_head s c r : lstrip s = c :: r → isspace c = false.
Proof.
  induction s as [|d s IH]; simpl; [done|].
  destruct (isspace d) eqn:Hd; [exact IH|].
  intros [= <- _]. exact Hd.
Qed.

Lemma strip_cons s c r : lstrip s = c :: r → strip s = c :: rstrip r.
Proof.
  intros H. unfold strip. rewrite H.
  apply rstrip_cons. by eapply lstrip_head.
Qed.

Lemma strip_nil s : strip s = [] ↔ lstrip s = [].
Proof.
  split.
  - destruct (lstrip s) as [|c r] eqn:H; [done|].
    by rewrite (strip_cons _ _ _ H).
  - intros H. unfold strip. by rewrite H.
Qed.


Lemma lstrip_app_blank k s : lstrip k = [] → lstrip (k ++ s) = lstrip s.
Proof.
  induction k as [|d k IH]; simpl; [done|].
  destruct (isspace d); [exact IH | done].
Qed.

Lemma contains_lstrip c s : contains c s = false → contains c (lstrip s) = false.
Proof.
  unfold contains. induction s as [|d s IH]; simpl; [done|].
  intros [H1 H2]%orb_false_elim.
  destruct (isspace d); [by apply IH|].
  simpl. by rewrite H1, H2.
Qed.

Lemma contains_rev c s : contains c (rev s) = contains c s.
Proof.
  unfold contains. induction s as [|d s IH]; simpl; [done|].
  rewrite existsb_app, IH. simpl. by rewrite orb_false_r, orb_comm.
Qed.

Lemma contains_strip c s : contains c s = false → contains c (strip s) = false.
Proof.
  intros H. unfold strip, rstrip.
  rewrite contains_rev. apply contains_lstrip.
  rewrite contains_rev. by apply contains_lstrip.
Qed.

(** [split] cuts at the first separator, and only when there is one. *)
Lemma split1_without c s : contains c s = false → split1 c s = [s].
Proof.
  unfold contains. induction s as [|d s IH]; simpl; [done|].
  intros [H1 H2]%orb_false_elim.
  rewrite N.eqb_sym, H1, (IH H2). done.
Qed.

Lemma split1_with c s :
  contains c s = true →
  ∃ k v, split1 c s = [k; v] ∧ s = k ++ c :: v ∧ contains c k = false.
Proof.
  unfold contains. induction s as [|d s IH]; simpl; [done|].
  destruct (d =? c)%N eqn:Hd.
  - apply N.eqb_eq in Hd as ->. intros _. by exists [], s.
  - rewrite N.eqb_sym, Hd. simpl. intros (k & v & -> & -> & Hk)%IH.
    exists (d :: k), v. simpl. by rewrite N.eqb_sym, Hd, Hk.
Qed.

Lemma split1_first c k v : contains c k = false → split1 c (k ++ c :: v) = [k; v].
Proof.
  unfold contains. induction k as [|d k IH]; simpl.
  - by rewrite N.eqb_refl.
  - intros [H1 H2]%orb_false_elim. rewrite N.eqb_sym, H1, (IH H2). done.
Qed.

(** A wrapped value is a quote, a body, the same quote; [unquote] keeps
    the body. *)
(** Reading in text mode does not change what [splitlines] returns. *)
Lemma splitlines_from_newlines (n : nat) s (cur : list N) :
  (length s ≤ n)%nat →
  splitlines_from cur (universal_newlines s) = splitlines_from cur s.
Proof.
  revert s cur. induction n as [|n IH]; intros [|c r] cur Hn; simpl in *;
    try done; try lia.
  destruct (N.eqb_spec c CR) as [->|Hc].
  - change (islinebreak CR) with true. cbn.
    f_equal. destruct r as [|d r'].
    + done.
    + destruct (N.eqb_spec d LF) as [->|Hd].
      * rewrite <- (IH r' []) by (simpl in Hn; lia).
        by destruct (universal_newlines r').
      * rewrite <- (IH (d :: r') []) by (simpl in *; lia).
        by destruct (universal_newlines (d :: r')).
  - assert (Hcr : (c =? CR)%N = false) by by apply N.eqb_neq.
    cbn [splitlines_from]. destruct (islinebreak c).
    + f_equal. rewrite Hcr. simpl.
      rewrite <- (IH r []) by lia.
      destruct (universal_newlines r), r; by rewrite ?IH by (simpl in *; lia).
    + apply IH. lia.
Qed.

Lemma splitlines_newlines s : splitlines (universal_newlines s) = splitlines s.
Proof. by apply (splitlines_from_newlines (length s)). Qed.





(** Stripping, splitting and unquoting only take characters away, and
    reading in text mode adds nothing but line feeds: a character that is
    not in the text is in none of its lines, names and values. *)
Lemma contains_app c s r : contains c (s ++ r) = contains c s || contains c r.
Proof. apply existsb_app. Qed.

Lemma contains_removelast c s :
  contains c s = false → contains c (removelast s) = false.
Proof.
  induction s as [|d [|d' s] IH]; simpl in *; [done|done|].
  intros [H1 H2]%orb_false_elim. rewrite H1. simpl. by apply IH.
Qed.

Lemma contains_unquote c (val : str) :
  contains c val = false → contains c (unquote val) = false.
Proof.
  intros H. unfold unquote. destruct (first val), (final val); try done.
  destruct (_ && _ && _); [|done]. unfold inner. apply contains_removelast.
  destruct val; simpl in *; [done|]. by apply orb_false_elim in H as [_ ?].
Qed.

Lemma contains_split1 c sep s k v :
  contains c s = false → split1 sep s = [k; v] →
  contains c k = false ∧ contains c v = false.
Proof.
  revert k. induction s as [|d s IH]; intros k; simpl; [done|].
  intros [Hd Hs]%orb_false_elim. destruct (d =? sep).
  - by intros [= <- <-].
  - destruct (split1 sep s) as [|h [|v' [|? ?]]] eqn:Hsplit; try done.
    intros [= <- <-]. destruct (IH h Hs eq_refl) as [Hh Hv].
    split; [|done]. simpl. by rewrite Hd, Hh.
Qed.

Lemma contains_splitlines_from c (n : nat) s (cur : list N) :
  (length s ≤ n)%nat →
  contains c cur = false → contains c s = false →
  Forall (λ l, contains c l = false) (splitlines_from cur s).
Proof.
  revert s cur. induction n as [|n IH]; intros [|d r] cur Hn Hcur Hs;
    simpl in *; try lia.
  - destruct cur; repeat constructor. by rewrite contains_rev.
  - destruct cur; repeat constructor. by rewrite contains_rev.
  - apply orb_false_elim in Hs as [Hd Hr].
    destruct (islinebreak d).
    + constructor; [by rewrite contains_rev|].
      destruct r as [|d' r']; [by apply IH; [simpl; lia|..]|].
      simpl in Hr. apply orb_false_elim in Hr as [Hd' Hr'].
      destruct (_ && _); apply IH; simpl in *; try lia; try done.
      by rewrite Hd', Hr'.
    + apply IH; [lia| |done]. simpl. by rewrite Hd, Hcur.
Qed.

Lemma contains_splitlines c s :
  contains c s = false → Forall (λ l, contains c l = false) (splitlines s).
Proof. intros H. by apply (contains_splitlines_from c (length s)). Qed.

Lemma contains_universal_newlines c (n : nat) s :
  (length s ≤ n)%nat → c ≠ LF →
  contains c s = false → contains c (universal_newlines s) = false.
Proof.
  intros Hn Hc. assert (Hlf : (c =? LF) = false) by by apply N.eqb_neq.
  revert s Hn. induction n as [|n IH]; intros [|d r] Hn Hs; simpl in *;
    try done; try lia.
  apply orb_false_elim in Hs as [Hd Hr]. destruct (d =? CR).
  - simpl. rewrite Hlf. simpl. destruct r as [|d' r']; [done|].
    simpl in Hr. apply orb_false_elim in Hr as [Hd' Hr'].
    destruct (d' =? LF); apply IH; simpl in *; try lia; try done.
    by rewrite Hd', Hr'.
  - simpl. rewrite Hd. simpl. apply IH; [lia | done].
Qed.

End text_facts.

(* ================================================================== *)
(** * The environment loader *)
(* ================================================================== *)

Section loader_facts.
Implicit Types (raw line key val : list N) (st : state).

(** The unpacking on line 45 never fails: the loop has already checked
    that there is an [=]. *)
Lemma parse_line_total raw : ∃ o, parse_line raw = Return o.
Proof.
  unfold parse_line.
  destruct (_ || _); [by eexists|].
  destruct (contains EQUALS (strip raw)) eqn:Hc; [|by eexists].
  destruct (split1_with _ _ Hc) as (k & v & -> & _). simpl.
  destruct (bool_decide _); by eexists.
Qed.

(** A line that gets past the checks yields its stripped key and its
    stripped, unquoted value. *)
Lemma parse_line_fields raw k v :
  strip raw ≠ [] →
  startswith HASH (strip raw) = false →
  split1 EQUALS (strip raw) = [k; v] →
  strip k ≠ [] →
  parse_line raw = Return (Some (strip k, unquote (strip v))).
Proof.
  intros Hne Hhash Hsplit Hkey. unfold parse_line.
  rewrite (bool_decide_eq_false_2 _ Hne), Hhash. simpl.
  destruct (contains EQUALS (strip raw)) eqn:Hc.
  - simpl. rewrite Hsplit. by rewrite (bool_decide_eq_false_2 _ Hkey).
  - by rewrite (split1_without _ _ Hc) in Hsplit.
Qed.






(** A parsed name and value hold no character the line does not hold. *)
Lemma parse_line_contains c raw k v :
  contains c raw = false →
  parse_line raw = Return (Some (k, v)) →
  contains c k = false ∧ contains c v = false.
Proof.
  intros Hraw%contains_strip. unfold parse_line.
  destruct (_ || _); [done|]. destruct (negb _); [done|].
  destruct (split1 EQUALS (strip raw)) as [|k0 [|v0 [|? ?]]] eqn:Hsplit;
    try done.
  destruct (contains_split1 _ _ _ _ _ Hraw Hsplit) as [Hk Hv].
  case_bool_decide; [done|]. intros [= <- <-].
  split; [by apply contains_strip | by apply contains_unquote, contains_strip].
Qed.

(** So what holds of every character of a text holds of every character
    of its parts. *)
Lemma forallb_part (P : N → bool) (part s : list N) :
  (∀ c, contains c s = false → contains c part = false) →
  forallb P s = true → forallb P part = true.
Proof.
  intros Hpart Hs. apply forallb_forall. intros c Hin.
  destruct (contains c s) eqn:Hc.
  - apply existsb_exists in Hc as (d & Hd & ->%N.eqb_eq).
    by apply (proj1 (forallb_forall _ _) Hs).
  - apply Hpart in Hc. apply not_true_iff_false in Hc. destruct Hc.
    apply existsb_exists. exists c. split; [done | apply N.eqb_refl].
Qed.

Lemma parse_line_encodes os raw k v :
  encodes os raw = true →
  parse_line raw = Return (Some (k, v)) →
  encodes os k = true ∧ encodes os v = true.
Proof.
  intros Hraw Hparse. split; (eapply forallb_part; [|exact Hraw]); intros c Hc;
    by destruct (parse_line_contains _ _ _ _ Hc Hparse).
Qed.

Lemma splitlines_encodes os (text : list N) :
  encodes os text = true →
  Forall (λ raw, encodes os raw = true) (splitlines text).
Proof.
  intros Htext. apply Forall_forall. intros raw Hin.
  eapply forallb_part; [|exact Htext]. intros c Hc.
  by apply (proj1 (Forall_forall _ _) (contains_splitlines _ _ Hc)).
Qed.

(** What [setdefault] does, by what [os.environ] refuses. *)
Lemma setdefault_spec os key val st :
  setdefault os key val st =
    match refusal os (environ st) key val with
    | Some e => (st, Raise (Exc e))
    | None =>
        match environ st !! key with
        | Some _ => (st, Return tt)
        | None => (set_environ st (<[key:=val]> (environ st)), Return tt)
        end
    end.
Proof.
  unfold setdefault, refusal. destruct (negb _); [done|].
  destruct (_ !! _); [done|]. destruct (negb _); [done|].
  by destruct (_ || _).
Qed.

Lemma refusal_encodes os env key val :
  refusal os env key val = None → encodes os key = true.
Proof. unfold refusal. by destruct (encodes os key). Qed.

Lemma refusal_defined os env key val old :
  encodes os key = true → env !! key = Some old →
  refusal os env key val = None.
Proof. unfold refusal. by intros -> ->. Qed.

Lemma refusal_storable os env key val :
  storable os key val = true → refusal os env key val = None.
Proof.
  unfold storable, refusal.
  intros [[-> ->]%andb_prop ->%negb_true_iff]%andb_prop. simpl.
  by destruct (env !! key).
Qed.

Lemma refusal_new os env key val :
  env !! key = None →
  refusal os env key val = None ↔ storable os key val = true.
Proof.
  intros Hkey. split; [|apply refusal_storable].
  unfold storable, refusal. rewrite Hkey.
  destruct (encodes os key); [|done]. destruct (encodes os val); [|done].
  simpl. by destruct (_ || _).
Qed.

Lemma setdefault_defined os key val st old :
  encodes os key = true → environ st !! key = Some old →
  setdefault os key val st = (st, Return tt).
Proof.
  intros Henc Hkey.
  by rewrite setdefault_spec, (refusal_defined _ _ _ _ _ Henc Hkey), Hkey.
Qed.


(** The loop touches nothing but the environment.  It runs to its end, or
    stops at the first line [os.environ] refuses, with the error of that
    refusal; each name has its old value or else its earliest definition
    among the lines [done] before that point. *)
Lemma load_lines_spec os (lines : list (list N)) st :
  ∃ st' r done rest,
    load_lines os lines st = (st', r)
    ∧ procs st' = procs st ∧ events st' = events st
    ∧ lines = done ++ rest
    ∧ (∀ key, environ st' !! key =
         match environ st !! key with
         | Some v => Some v
         | None => earliest_definition key done
         end)
    ∧ match r with
      | Return _ => rest = []
      | Raise x =>
          ∃ raw rest' k v e,
            rest = raw :: rest' ∧ x = Exc e
            ∧ parse_line raw = Return (Some (k, v))
            ∧ refusal os (environ st') k v = Some e
      end.
Proof.
  revert st. induction lines as [|raw lines IH]; intros st.
  - exists st, (Return tt), [], []. repeat split.
    intros key. simpl. by destruct (_ !! _).
  - destruct (parse_line_total raw) as [o Ho].
    simpl. unfold bind at 1. rewrite Ho. simpl.
    destruct o as [[k v]|].
    + unfold bind. rewrite setdefault_spec.
      destruct (refusal os (environ st) k v) as [e|] eqn:Hrefusal.
      { exists st, (Raise (Exc e)), [], (raw :: lines).
        repeat split; [|by exists raw, lines, k, v, e].
        intros key. simpl. by destruct (environ st !! key). }
      destruct (environ st !! k) as [old|] eqn:Hk.
      * destruct (IH st)
          as (st' & r & done & rest & -> & Hp & He & -> & Hlook & Hr).
        exists st', r, (raw :: done), rest. repeat split; try done.
        intros key. rewrite Hlook. simpl. rewrite Ho.
        destruct (environ st !! key) eqn:Hkey; [done|].
        rewrite bool_decide_eq_false_2; [done | congruence].
      * destruct (IH (set_environ st (<[k:=v]> (environ st))))
          as (st' & r & done & rest & -> & Hp & He & -> & Hlook & Hr).
        exists st', r, (raw :: done), rest. repeat split; try done.
        intros key. rewrite Hlook. simpl. rewrite Ho.
        destruct (decide (k = key)) as [->|Hne].
        -- rewrite lookup_insert_eq, Hk. by rewrite bool_decide_eq_true_2.
        -- rewrite lookup_insert_ne by done.
           by rewrite (bool_decide_eq_false_2 _ Hne).
    + destruct (IH st)
        as (st' & r & done & rest & -> & Hp & He & -> & Hlook & Hr).
      exists st', r, (raw :: done), rest. repeat split; try done.
      intros key. rewrite Hlook. simpl. by rewrite Ho.
Qed.

(** A definition found among the first lines is the definition found in
    the whole file. *)
Lemma earliest_definition_prefix key (done rest : list (list N)) val :
  earliest_definition key done = Some val →
  earliest_definition key (done ++ rest) = Some val.
Proof.
  induction done as [|raw done IH]; simpl; [done|].
  destruct (parse_line raw) as [[[k v]|]|e]; [|exact IH|exact IH].
  by case_bool_decide.
Qed.

(** Lines of characters the environment can encode, without a NUL
    character, are loaded to the end. *)
Lemma load_lines_clean os (lines : list (list N)) st :
  Forall (λ raw, encodes os raw = true) lines →
  Forall (λ raw, contains NUL raw = false) lines →
  ∃ st', load_lines os lines st = (st', Return tt).
Proof.
  intros Henc Hclean.
  destruct (load_lines_spec os lines st)
    as (st' & r & done & rest & Hrun & _ & _ & Hlines & _ & Hr).
  destruct r as [[]|x]; [by exists st'|].
  destruct Hr as (raw & rest' & k & v & e & -> & _ & Hraw & Hrefusal).
  assert (Hin : raw ∈ lines) by (rewrite Hlines, elem_of_app; right; by left).
  pose proof (proj1 (Forall_forall _ _) Henc _ Hin) as Hraw_enc.
  pose proof (proj1 (Forall_forall _ _) Hclean _ Hin) as Hraw_nul.
  destruct (parse_line_contains _ _ _ _ Hraw_nul Hraw) as [Hk Hv].
  destruct (parse_line_encodes _ _ _ _ Hraw_enc Hraw) as [Hke Hve].
  rewrite refusal_storable in Hrefusal; [done|].
  unfold storable. by rewrite Hke, Hve, Hk, Hv.
Qed.


(** What [_load_dotenv] does, case by case on the file. *)
Lemma load_dotenv_no_file os path st :
  exists_ (fs os path) && is_file (fs os path) = false →
  _load_dotenv os path st = (st, Return tt).
Proof.
  unfold _load_dotenv. intros H.
  by destruct (exists_ _), (is_file _).
Qed.

Lemma load_dotenv_unreadable os path st e :
  exists_ (fs os path) && is_file (fs os path) = true →
  read_text path (fs os path) = Raise e →
  _load_dotenv os path st = (st, Raise (Exc e)).
Proof.
  unfold _load_dotenv. intros [-> ->]%andb_prop ->. done.
Qed.

Lemma load_dotenv_text os path st text :
  exists_ (fs os path) && is_file (fs os path) = true →
  read_text path (fs os path) = Return text →
  _load_dotenv os path st = load_lines os (splitlines text) st.
Proof.
  unfold _load_dotenv. intros [-> ->]%andb_prop ->. done.
Qed.

(** Loading changes nothing but the environment, and there gives every
    name its old value or else its earliest definition among the lines
    [done] the loop got through: all of them when the load returns. *)
Lemma load_dotenv_spec os path st :
  ∃ st' r done rest,
    _load_dotenv os path st = (st', r)
    ∧ procs st' = procs st ∧ events st' = events st
    ∧ file_lines path (fs os path) = done ++ rest
    ∧ (∀ key, environ st' !! key =
         match environ st !! key with
         | Some v => Some v
         | None => earliest_definition key done
         end)
    ∧ (r = Return tt → rest = [])
    ∧ (∀ raw rest', rest = raw :: rest' →
       ∃ k v e,
         r = Raise (Exc e)
         ∧ parse_line raw = Return (Some (k, v))
         ∧ refusal os (environ st') k v = Some e).
Proof.
  unfold file_lines.
  destruct (exists_ (fs os path) && is_file (fs os path)) eqn:Hf.
  - destruct (read_text path (fs os path)) as [text|e] eqn:Hr.
    + rewrite (load_dotenv_text _ _ _ _ Hf Hr).
      destruct (load_lines_spec os (splitlines text) st)
        as (st' & r & done & rest & -> & Hp & He & Hlines & Hlook & Hrest).
      exists st', r, done, rest. repeat split; try done.
      * by intros ->.
      * intros raw rest' ->. destruct r as [[]|x]; [done|].
        destruct Hrest as (raw' & rest'' & k & v & e & [= <- <-] & -> & ?).
        by exists k, v, e.
    + rewrite (load_dotenv_unreadable _ _ _ _ Hf Hr).
      exists st, (Raise (Exc e)), [], []. repeat split; try done.
      intros key. simpl. by destruct (_ !! _).
  - rewrite (load_dotenv_no_file _ _ _ Hf).
    exists st, (Return tt), [], []. repeat split; try done.
    intros key. simpl. by destruct (_ !! _).
Qed.


(** What a file that was read as text can do to the loader. *)
Lemma load_dotenv_decoded os path st content text :
  fs os path = Regular content → decode_utf8 content = Some text →
  ∃ st' r,
    _load_dotenv os path st = (st', r)
    ∧ (encodes os text = true → contains NUL text = false → r = Return tt)
    ∧ (r = Return tt
       ∨ ∃ raw k v e,
           r = Raise (Exc e)
           ∧ raw ∈ file_lines path (fs os path)
           ∧ parse_line raw = Return (Some (k, v))
           ∧ refusal os (environ st') k v = Some e).
Proof.
  intros Hf Hd.
  assert (Hfile : exists_ (fs os path) && is_file (fs os path) = true)
    by (by rewrite Hf).
  assert (Hread : read_text path (fs os path) = Return (universal_newlines text))
    by (rewrite Hf; simpl; by rewrite Hd).
  unfold file_lines. rewrite Hfile, Hread.
  rewrite (load_dotenv_text _ _ _ _ Hfile Hread), splitlines_newlines.
  destruct (load_lines_spec os (splitlines text) st)
    as (st' & r & done & rest & Hrun & _ & _ & Hlines & _ & Hr).
  exists st', r. split; [done|]. split.
  - intros Henc Hclean.
    destruct (load_lines_clean os (splitlines text) st) as [st'' Hrun'];
      [by apply splitlines_encodes | by apply contains_splitlines |].
    congruence.
  - destruct r as [[]|x]; [by left|]. right.
    destruct Hr as (raw & rest' & k & v & e & -> & -> & Hraw & Hrefusal).
    exists raw, k, v, e. split; [done|]. split; [|done].
    rewrite Hlines, elem_of_app. right. by left.
Qed.

(** Three readings of it: old values stay; a new value is the earliest
    definition in the file; and after a load that returned, every name has
    its old value or else its earliest definition in the file. *)
Lemma load_dotenv_keeps os path st key val :
  environ st !! key = Some val →
  environ (_load_dotenv os path st).1 !! key = Some val.
Proof.
  intros Hkey.
  destruct (load_dotenv_spec os path st)
    as (st' & r & done & rest & -> & _ & _ & _ & Hlook & _).
  simpl. by rewrite Hlook, Hkey.
Qed.

Lemma load_dotenv_new os path st key val :
  environ st !! key = None →
  environ (_load_dotenv os path st).1 !! key = Some val →
  earliest_definition key (file_lines path (fs os path)) = Some val.
Proof.
  intros Hkey.
  destruct (load_dotenv_spec os path st)
    as (st' & r & done & rest & -> & _ & _ & -> & Hlook & _).
  simpl. rewrite Hlook, Hkey. apply earliest_definition_prefix.
Qed.


End loader_facts.

(* ================================================================== *)
(** * The supervisor *)
(* ================================================================== *)

Section supervisor_facts.
Context (os : OS).
Implicit Types (st : state) (p : pid) (ps : list pid) (evs : list event).

Local Ltac run :=
  unfold try_except, bind, call, ret, raise, emit, log, set_procs; simpl.

(** *** Spawning *)

Lemma spawn_missing path st :
  exists_ (fs os path) = false →
  _spawn os path st = (st, Raise (Exc (FileNotFoundError path))).
Proof. unfold _spawn. by intros ->. Qed.

Lemma spawn_present path st :
  exists_ (fs os path) = true →
  let r := Popen_ os (events st) path (environ st) in
  _spawn os path st
  = (log st (EvPopen path (environ st) (negb (nt os)) r), r).
Proof.
  unfold _spawn. intros ->. simpl. unfold call.
  by destruct (Popen_ _ _ _ _).
Qed.

(** *** Waiting *)

Lemma wait_loop_returns ps rcs st evs' c :
  exits_with os (events st) ps rcs evs' →
  wait_loop os ps c st
  = (State (environ st) (procs st) evs',
     Return (if (c =? 0)%Z then aggregate_result rcs else c)).
Proof.
  intros H. remember (events st) as evs eqn:Hevs.
  revert st c Hevs.
  induction H as [evs | evs p ps rc rcs evs' Hw _ IH]; intros st c ->.
  - simpl. destruct st. unfold ret. simpl.
    by destruct (Z.eqb_spec c 0) as [->|].
  - simpl. unfold bind, wait, call. rewrite Hw.
    destruct (rc =? 0)%Z eqn:Hrc, (c =? 0)%Z eqn:Hc; simpl;
      rewrite (IH (log st (EvWait p (Return rc))) _ eq_refl); simpl;
      by rewrite ?Hrc, ?Hc.
Qed.

Lemma exits_with_events evs ps rcs evs' :
  exits_with os evs ps rcs evs' →
  evs' = evs ++ waits ps rcs ∧ length rcs = length ps.
Proof.
  induction 1 as [evs | evs p ps rc rcs evs' _ _ [-> Hlen]].
  - by rewrite app_nil_r.
  - unfold waits. simpl. by rewrite <- app_assoc, Hlen.
Qed.

Lemma wait_loop_app ps1 ps2 c st :
  wait_loop os (ps1 ++ ps2) c st
  = match wait_loop os ps1 c st with
    | (st', Return c') => wait_loop os ps2 c' st'
    | (st', Raise e) => (st', Raise e)
    end.
Proof.
  revert c st. induction ps1 as [|p ps1 IH]; intros c st; simpl; [done|].
  unfold bind. destruct (wait os p st) as [st1 [rc|e]]; [|done].
  destruct (_ && _); apply IH.
Qed.

Lemma wait_loop_keeps ps c st st' r :
  wait_loop os ps c st = (st', r) →
  environ st' = environ st ∧ procs st' = procs st.
Proof.
  revert c st. induction ps as [|p ps IH]; intros c st; simpl.
  - by intros [= <- _].
  - unfold bind, wait, call. destruct (wait_ os (events st) p) as [rc|e].
    + destruct (_ && _); intros H%IH; by destruct H.
    + by intros [= <- _].
Qed.

Lemma wait_loop_interrupted p ps c st e :
  wait_ os (events st) p = Raise e →
  wait_loop os (p :: ps) c st = (log st (EvWait p (Raise e)), Raise e).
Proof. intros H. simpl. unfold bind, wait, call. by rewrite H. Qed.

(** *** Terminating *)

Lemma terminate_spec p st :
  ∃ st' seg, _terminate os p st = (st', Return tt)
    ∧ environ st' = environ st ∧ procs st' = procs st
    ∧ events st' = events st ++ seg ∧ stops os p (events st) seg.
Proof.
  unfold _terminate, poll, terminate, killpg, stops, stop_answer, stop_request.
  run. rewrite <- ?app_assoc. simpl.
  repeat (case_match; simplify_eq/=);
    repeat match goal with a : unit |- _ => destruct a end;
    eexists _, _; (split; [reflexivity|]); simpl;
    (split; [done|]); (split; [done|]);
    rewrite <- ?app_assoc; simpl; (split; [reflexivity|]);
    repeat match goal with
           | H : context [(_ ++ _) ++ _] |- _ =>
               rewrite <- app_assoc in H; simpl in H
           end;
    congruence.
Qed.

Lemma reap_spec p st :
  ∃ st' seg,
    reap os p st
    = (st', match breaks os p (events st) with
            | None => Return tt
            | Some e => Raise e
            end)
    ∧ environ st' = environ st ∧ procs st' = procs st
    ∧ events st' = events st ++ seg ∧ reaps os p (events st) seg.
Proof.
  unfold reap, wait_timeout, kill, killpg, reaps, breaks, kill_answer,
    forced_kill.
  run.
  repeat (case_match; simplify_eq/=);
    repeat match goal with a : unit |- _ => destruct a end;
    eexists _, _; (split; [reflexivity|]); simpl;
    (split; [done|]); (split; [done|]);
    rewrite <- ?app_assoc; simpl; (split; [reflexivity|]);
    repeat match goal with
           | H : context [(_ ++ _) ++ _] |- _ =>
               rewrite <- app_assoc in H; simpl in H
           end;
    congruence.
Qed.

(** A wait that is cut short is the only entry for its child, and what cut
    it short is not an [Exception]. *)
Lemma reaps_break p evs seg e :
  breaks os p evs = Some e → reaps os p evs seg →
  seg = [EvWaitTimeout p 5 (Raise e)] ∧ is_Exception e = false.
Proof.
  unfold breaks, reaps.
  destruct (wait_timeout_ os evs p 5) as [rc|x]; [done|].
  destruct (is_Exception x) eqn:Hx; [done|]. by intros [= <-] ->.
Qed.

Lemma stop_loop_spec ps st :
  ∃ st', for_each ps (_terminate os) st = (st', Return tt)
    ∧ environ st' = environ st ∧ procs st' = procs st
    ∧ stop_round os ps (events st) (events st').
Proof.
  revert st. induction ps as [|p ps IH]; intros st.
  - exists st. repeat split. constructor.
  - simpl. unfold bind.
    destruct (terminate_spec p st) as (st1 & seg & -> & He & Hp & Hev & Hseg).
    destruct (IH st1) as (st' & -> & He' & Hp' & Hround).
    exists st'. split; [done|]. split; [congruence|]. split; [congruence|].
    econstructor; [exact Hseg|]. by rewrite <- Hev.
Qed.

Lemma grace_loop_spec ps st :
  ∃ st' b,
    for_each ps (reap os) st
    = (st', match b with None => Return tt | Some e => Raise e end)
    ∧ environ st' = environ st ∧ procs st' = procs st
    ∧ grace_round os ps (events st) (events st') b.
Proof.
  revert st. induction ps as [|p ps IH]; intros st.
  - exists st, None. repeat split. constructor.
  - simpl. unfold bind.
    destruct (reap_spec p st) as (st1 & seg & -> & He & Hp & Hev & Hseg).
    destruct (breaks os p (events st)) as [e|] eqn:Hb.
    + exists st1, (Some e). repeat split; try done.
      destruct (reaps_break _ _ _ _ Hb Hseg) as [-> _].
      rewrite Hev. by apply grace_round_break.
    + destruct (IH st1) as (st' & b & -> & He' & Hp' & Hround).
      exists st', b. split; [done|]. split; [congruence|]. split; [congruence|].
      eapply grace_round_cons; [exact Hb | exact Hseg |]. by rewrite <- Hev.
Qed.

(** The handler: the whole stop round, then the grace round; 130 unless a
    wait of the grace round is cut short. *)
Lemma main_except_spec st :
  ∃ st' r, main_except os st = (st', r)
    ∧ environ st' = environ st ∧ procs st' = procs st
    ∧ drained os (procs st) (events st) (events st') r.
Proof.
  unfold main_except, get_procs, bind.
  destruct (stop_loop_spec (procs st) st) as (st1 & -> & He1 & Hp1 & Hstop).
  destruct (grace_loop_spec (procs st) st1)
    as (st2 & b & -> & He2 & Hp2 & Hgrace).
  exists st2, (match b with None => Return 130%Z | Some e => Raise e end).
  split; [by destruct b|].
  split; [congruence|]. split; [congruence|].
  by exists (events st1), b.
Qed.

Lemma grace_round_break_kind ps evs evs' e :
  grace_round os ps evs evs' (Some e) → is_Exception e = false.
Proof.
  intros H. remember (Some e) as b eqn:Hb.
  induction H as [| |p ps evs x Hx]; [done | auto |].
  injection Hb as ->. unfold breaks in Hx.
  destruct (wait_timeout_ os evs p 5); [done|].
  destruct (is_Exception _) eqn:Hk; [done|]. by injection Hx as <-.
Qed.

Lemma grace_round_uninterrupted ps evs evs' b :
  grace_uninterrupted os → grace_round os ps evs evs' b → b = None.
Proof.
  intros Hnone. induction 1 as [| |p ps evs e He]; [done | done |].
  by rewrite Hnone in He.
Qed.

(** How the handler can end. *)
Lemma drained_result ps evs evs' r :
  drained os ps evs evs' r →
  r = Return 130%Z ∨ ∃ e, r = Raise e ∧ is_Exception e = false.
Proof.
  intros (mid & b & _ & Hgrace & ->). destruct b as [e|]; [|by left].
  right. exists e. split; [done|]. by eapply grace_round_break_kind.
Qed.

Lemma drained_uninterrupted ps evs evs' r :
  grace_uninterrupted os → drained os ps evs evs' r → r = Return 130%Z.
Proof.
  intros Hnone (mid & b & _ & Hgrace & ->).
  by rewrite (grace_round_uninterrupted _ _ _ _ Hnone Hgrace).
Qed.

(** *** Arguments *)

Lemma exit_option_prints argv e :
  exit_option argv = Some e →
  e = EvPrintHelp Stdout ∨ e = EvPrintVersion "AvicBotChat 2026.02".
Proof.
  induction argv as [|o argv IH]; simpl; [done|].
  destruct o; simpl; try exact IH; intros [= <-]; auto.
Qed.

Lemma parse_from_spec argv ns st :
  parse_from _build_parser ns argv st =
    match exit_option argv with
    | Some e => (log st e, Raise (SystemExit 0))
    | None =>
        (st, Return {| twitch := twitch ns || mentions Twitch argv;
                       wikimedia := wikimedia ns || mentions Wikimedia argv |})
    end.
Proof.
  revert ns. induction argv as [|o argv IH]; intros ns.
  - simpl. destruct ns. unfold ret. simpl. by rewrite !orb_false_r.
  - destruct o; simpl; rewrite ?IH; simpl; try done;
      destruct (exit_option argv); try done;
      by rewrite ?orb_true_r, ?orb_assoc.
Qed.

Lemma same_child_eq (a b : child) : same_child a b = true → a = b.
Proof. by destruct a, b. Qed.

Lemma request_order_from_nil argv seen c :
  request_order_from seen argv = [] →
  mentions c argv = true →
  existsb (same_child c) seen = true.
Proof.
  revert seen. induction argv as [|o argv IH]; intros seen; simpl; [done|].
  destruct (names o) as [d|]; simpl; [|apply IH].
  destruct (existsb (same_child d) seen) eqn:Hd; [|done].
  intros Hnil [H%same_child_eq | H]%orb_prop; [by subst | by apply IH].
Qed.

Lemma request_order_nil argv c : request_order argv = [] → mentions c argv = false.
Proof.
  intros H. destruct (mentions c argv) eqn:Hm; [|done].
  by apply (request_order_from_nil _ _ c H) in Hm.
Qed.

(** *** Start-up and [main] *)

Lemma startup_returns argv st st1 args :
  startup os argv st = (st1, Return args) →
  events st1 = events st ∧ procs st1 = procs st
  ∧ twitch args = mentions Twitch argv
  ∧ wikimedia args = mentions Wikimedia argv.
Proof.
  unfold startup, parse_args, bind. rewrite parse_from_spec.
  destruct (exit_option argv); [done|].
  destruct (load_dotenv_spec os ".env" st)
    as (st' & r & done & rest & -> & Hp & He & _).
  destruct r as [[]|e]; [|done]. by intros [= <- <-].
Qed.

Lemma startup_events argv st st1 r :
  startup os argv st = (st1, r) →
  procs st1 = procs st
  ∧ ∃ evs, events st1 = events st ++ evs ∧ Forall (λ e, spawns e = false) evs.
Proof.
  unfold startup, parse_args, bind. rewrite parse_from_spec.
  destruct (exit_option argv) as [e|] eqn:Hexit.
  - intros [= <- _]. split; [done|]. exists [e].
    split; [done|]. constructor; [|constructor].
    by destruct (exit_option_prints _ _ Hexit) as [-> | ->].
  - destruct (load_dotenv_spec os ".env" st)
      as (st' & r' & done & rest & -> & Hp & He & _).
    intros H. assert (st1 = st') as ->.
    { destruct r' as [[]|]; unfold ret in H; by simplify_eq. }
    split; [done|]. exists []. by rewrite app_nil_r.
Qed.

Lemma main_after_startup argv st :
  main os argv st =
    match startup os argv st with
    | (st1, Return args) =>
        if negb (twitch args) && negb (wikimedia args)
        then (log st1 (EvPrintHelp Stderr), Return 2%Z)
        else try_except is_KeyboardInterrupt (main_try os args)
               (main_except os) (set_procs st1 [])
    | (st1, Raise e) => (st1, Raise e)
    end.
Proof.
  unfold main, startup, bind.
  destruct (parse_args _build_parser argv st) as [st0 [args|e]]; [|done].
  destruct (_load_dotenv os ".env" st0) as [st1 [[]|e]]; [|done].
  unfold ret. by destruct (_ && _).
Qed.

Lemma main_try_after_spawn args st :
  main_try os args st =
    match spawn_requested os args st with
    | (st2, Return _) => wait_loop os (procs st2) 0 st2
    | (st2, Raise e) => (st2, Raise e)
    end.
Proof.
  unfold main_try, wait_all, get_procs, bind.
  by destruct (spawn_requested os args st) as [st2 [[]|e]].
Qed.

Lemma spawn_if_spec requested path st st' r :
  spawn_if os requested path st = (st', r) →
  environ st' = environ st
  ∧ ∃ evs, events st' = events st ++ evs ∧ Forall (λ e, spawns e = true) evs.
Proof.
  unfold spawn_if. destruct requested.
  - unfold bind, _spawn, procs_append, call, raise.
    destruct (negb _).
    + intros [= <- _]. split; [done|]. exists []. by rewrite app_nil_r.
    + destruct (Popen_ _ _ _ _); intros [= <- _]; (split; [done|]);
        eexists; (split; [reflexivity|]); by repeat constructor.
  - intros [= <- _]. split; [done|]. exists []. by rewrite app_nil_r.
Qed.

Lemma spawns_not_cleanup (e : event) : spawns e = true → waits_or_cleans e = false.
Proof. by destruct e. Qed.

Lemma spawn_requested_none args st :
  twitch args = false → wikimedia args = false →
  spawn_requested os args st = (st, Return tt).
Proof. unfold spawn_requested, spawn_if. by intros -> ->. Qed.

Lemma spawn_requested_both args st st2 :
  twitch args = true → wikimedia args = true →
  spawn_requested os args st = (st2, Return tt) →
  ∃ p1 p2,
    procs st2 = procs st ++ [p1; p2] ∧ environ st2 = environ st
    ∧ events st2 = events st ++
        [EvPopen "twitch.py" (environ st) (negb (nt os)) (Return p1);
         EvPopen "avicbotirc.py" (environ st) (negb (nt os)) (Return p2)].
Proof.
  unfold spawn_requested, spawn_if, _spawn, procs_append. intros -> ->. run.
  repeat (case_match; simplify_eq/=); intros [= <-]; simpl.
  eexists _, _. by rewrite <- !app_assoc.
Qed.

(** The three ways out of the [try] block. *)
Lemma main_children_exit argv st args st1 st2 rcs evs' :
  startup os argv st = (st1, Return args) →
  twitch args || wikimedia args = true →
  spawn_requested os args (set_procs st1 []) = (st2, Return tt) →
  exits_with os (events st2) (procs st2) rcs evs' →
  main os argv st
  = (State (environ st2) (procs st2) evs', Return (aggregate_result rcs)).
Proof.
  intros Hs Hflags Hsp Hexit. rewrite main_after_startup, Hs.
  replace (negb (twitch args) && negb (wikimedia args)) with false
    by (by destruct (twitch args), (wikimedia args)).
  unfold try_except.
  by rewrite main_try_after_spawn, Hsp, (wait_loop_returns _ _ _ _ _ Hexit).
Qed.

Lemma main_spawn_raises argv st args st1 st2 e :
  startup os argv st = (st1, Return args) →
  twitch args || wikimedia args = true →
  spawn_requested os args (set_procs st1 []) = (st2, Raise (Exc e)) →
  main os argv st = (st2, Raise (Exc e)).
Proof.
  intros Hs Hflags Hsp. rewrite main_after_startup, Hs.
  replace (negb (twitch args) && negb (wikimedia args)) with false
    by (by destruct (twitch args), (wikimedia args)).
  unfold try_except. by rewrite main_try_after_spawn, Hsp.
Qed.

Lemma main_wait_interrupted argv st args st1 st2 before p after code st3 :
  startup os argv st = (st1, Return args) →
  spawn_requested os args (set_procs st1 []) = (st2, Return tt) →
  procs st2 = before ++ p :: after →
  wait_loop os before 0 st2 = (st3, Return code) →
  wait_ os (events st3) p = Raise KeyboardInterrupt →
  main os argv st
  = main_except os (log st3 (EvWait p (Raise KeyboardInterrupt)))
  ∧ procs st3 = before ++ p :: after.
Proof.
  intros Hs Hsp Hprocs Hbefore Hint.
  destruct (wait_loop_keeps _ _ _ _ _ Hbefore) as [_ Hp3].
  split; [|congruence].
  rewrite main_after_startup, Hs.
  destruct (negb (twitch args) && negb (wikimedia args)) eqn:Hflags.
  { apply andb_prop in Hflags as [Ht%negb_true_iff Hw%negb_true_iff].
    rewrite (spawn_requested_none _ _ Ht Hw) in Hsp.
    injection Hsp as <-. simpl in Hprocs. by destruct before. }
  unfold try_except.
  rewrite main_try_after_spawn, Hsp, Hprocs, wait_loop_app, Hbefore.
  by rewrite (wait_loop_interrupted _ _ _ _ _ Hint).
Qed.

End supervisor_facts.

(* ================================================================== *)
(** * The claims: environment loader *)
(* ================================================================== *)

(** C1. A key that is in the environment before the loader runs has the
    same value afterwards, for every file and every starting environment,
    whether or not the load runs to its end: the loader only sets names
    that are not yet defined. *)
Theorem C1_override_never (os : OS) (path : string) (st : state)
    (key val : list N) :
  environ st !! key = Some val →
  environ (_load_dotenv os path st).1 !! key = Some val.
Proof.
  apply load_dotenv_keeps.
Qed.

Lemma C1_witness :
  let st := State {[ py "KEY" := py "old" ]} [] [] in
  environ st !! py "KEY" = Some (py "old")
  ∧ environ (_load_dotenv with_dotenv ".env" st).1 !! py "KEY"
    = Some (py "old").
Proof.
  split; [reflexivity|].
  apply (C1_override_never with_dotenv ".env"). reflexivity.
Defined.









(* ================================================================== *)
(** * The claims: supervisor *)
(* ================================================================== *)

Lemma aggregate_all_zero (rcs : list Z) :
  Forall (λ rc, rc = 0%Z) rcs → aggregate_result rcs = 0%Z.
Proof. induction 1 as [|rc rcs -> _ IH]; [done | exact IH]. Qed.

Lemma aggregate_first_nonzero (zeros later : list Z) (rc : Z) :
  Forall (λ z, z = 0%Z) zeros → rc ≠ 0%Z →
  aggregate_result (zeros ++ rc :: later) = rc.
Proof.
  intros Hz Hrc. induction Hz as [|z zeros -> _ IH]; simpl; [|exact IH].
  by destruct (Z.eqb_spec rc 0).
Qed.

(** C2, as stated, fails: when the wait of the handler is itself
    interrupted, [except Exception] lets the interrupt through and [main]
    ends in [KeyboardInterrupt], not in 130. *)
Lemma C2_counterexample : ¬ interrupt_returns_130.
Proof.
  intros H.
  edestruct (H interrupted_twice [Opt_Twitch; Opt_Wikimedia] fresh)
    with (before := [0%nat]) (after := @nil pid) (p := 1%nat) (code := 3%Z)
    as (st4 & Hrun); [reflexivity..|].
  discriminate Hrun.
Qed.

(** C2, amended.  An interrupt that arrives while the supervisor waits -
    on any of the children, after any number of them have been waited on
    with any partial exit code - sends the run through the termination
    path: every spawned child is polled and, if running, asked to stop.
    Then come the waits of 5 seconds and the forced kills, and [main]
    returns 130 - unless one of those waits is cut short by a further
    interrupt, which then leaves [main] in place of the 130.  Where no such
    wait is cut short the 130 is certain. *)
Theorem C2_interrupt_drains_all (os : OS) (argv : list option_string)
    (st st1 st2 st3 : state) (args : Namespace)
    (before after : list pid) (p : pid) (code : Z) :
  startup os argv st = (st1, Return args) →
  spawn_requested os args (set_procs st1 []) = (st2, Return tt) →
  procs st2 = before ++ p :: after →
  wait_loop os before 0 st2 = (st3, Return code) →
  wait_ os (events st3) p = Raise KeyboardInterrupt →
  ∃ st4 r,
    main os argv st = (st4, r)
    ∧ drained os (before ++ p :: after)
        (events st3 ++ [EvWait p (Raise KeyboardInterrupt)]) (events st4) r
    ∧ (grace_uninterrupted os → r = Return 130%Z)
    ∧ (r = Return 130%Z ∨ ∃ e, r = Raise e ∧ is_Exception e = false).
Proof.
  intros Hs Hsp Hprocs Hbefore Hint.
  destruct (main_wait_interrupted os _ _ _ _ _ _ _ _ _ _
              Hs Hsp Hprocs Hbefore Hint) as [-> Hp3].
  destruct (main_except_spec os
              (log st3 (EvWait p (Raise KeyboardInterrupt))))
    as (st4 & r & -> & _ & _ & Hdrained).
  simpl in Hdrained. rewrite Hp3 in Hdrained.
  exists st4, r. split; [done|]. split; [done|]. split.
  - intros Hnone. by eapply drained_uninterrupted.
  - by eapply drained_result.
Qed.

Lemma C2_witness :
  (main interrupted [Opt_Twitch; Opt_Wikimedia] fresh).2 = Return 130%Z.
Proof.
  edestruct (C2_interrupt_drains_all interrupted [Opt_Twitch; Opt_Wikimedia]
               fresh)
    with (before := [0%nat]) (after := @nil pid) (p := 1%nat) (code := 3%Z)
    as (st4 & r & -> & _ & Hr & _); [reflexivity..|].
  simpl. apply Hr. intros evs q. unfold breaks. simpl.
  by destruct (Nat.eqb q 0).
Defined.

(** C3. When every spawned child exits, [main] returns 0 if all the exit
    codes are 0 and otherwise the first non-zero code in wait order,
    whatever the later codes are; and by then it has waited on every child,
    in order. *)
Theorem C3_first_failure_wins (os : OS) (argv : list option_string)
    (st st1 st2 : state) (args : Namespace) (rcs : list Z)
    (evs' : list event) :
  startup os argv st = (st1, Return args) →
  twitch args || wikimedia args = true →
  spawn_requested os args (set_procs st1 []) = (st2, Return tt) →
  exits_with os (events st2) (procs st2) rcs evs' →
  main os argv st
  = (State (environ st2) (procs st2) evs', Return (aggregate_result rcs))
  ∧ evs' = events st2 ++ waits (procs st2) rcs
  ∧ length rcs = length (procs st2)
  ∧ (Forall (λ rc, rc = 0%Z) rcs → aggregate_result rcs = 0%Z)
  ∧ (∀ zeros rc later,
       rcs = zeros ++ rc :: later → Forall (λ z, z = 0%Z) zeros →
       rc ≠ 0%Z → aggregate_result rcs = rc).
Proof.
  intros Hs Hflags Hsp Hexit.
  destruct (exits_with_events os _ _ _ _ Hexit) as [Hevs Hlen].
  split; [by eapply main_children_exit|].
  split; [done|]. split; [done|].
  split; [apply aggregate_all_zero|].
  intros zeros rc later ->. apply aggregate_first_nonzero.
Qed.

Lemma C3_witness :
  (main both_exit [Opt_Twitch; Opt_Wikimedia] fresh).2 = Return 5%Z.
Proof.
  edestruct (C3_first_failure_wins both_exit [Opt_Twitch; Opt_Wikimedia]
               fresh) with (rcs := [0; 5]%Z) as [-> _];
    [reflexivity | reflexivity | reflexivity | | reflexivity].
  eapply exits_cons; [reflexivity|].
  eapply exits_cons; [reflexivity|]. apply exits_nil.
Defined.

(** C4. [_spawn] on a path that does not exist raises [FileNotFoundError]
    without starting anything.  In [main] the error of a requested child
    whose script is missing goes straight out: nothing is waited on, and a
    sibling that was already started is neither signalled nor reaped - the
    log holds nothing but the spawns. *)
Theorem C4_missing_script_is_fatal (os : OS) (argv : list option_string)
    (st st1 : state) (args : Namespace) :
  startup os argv st = (st1, Return args) →
  (∀ path s, exists_ (fs os path) = false →
     _spawn os path s = (s, Raise (Exc (FileNotFoundError path))))
  ∧ (twitch args = true → exists_ (fs os "twitch.py") = false →
     main os argv st
     = (State (environ st1) [] (events st),
        Raise (Exc (FileNotFoundError "twitch.py"))))
  ∧ (wikimedia args = true → exists_ (fs os "avicbotirc.py") = false →
     ∀ st2,
       spawn_if os (twitch args) "twitch.py" (set_procs st1 []) = (st2, Return tt) →
       main os argv st = (st2, Raise (Exc (FileNotFoundError "avicbotirc.py")))
       ∧ ∃ evs, events st2 = events st ++ evs
           ∧ Forall (λ e, waits_or_cleans e = false) evs).
Proof.
  intros Hs. destruct (startup_returns os _ _ _ _ Hs) as (Hev & _).
  split; [apply spawn_missing|]. split.
  - intros Ht Hmissing.
    rewrite (main_spawn_raises os _ _ _ _ (set_procs st1 [])
               (FileNotFoundError "twitch.py") Hs).
    + unfold set_procs. by rewrite Hev.
    + by rewrite Ht.
    + unfold spawn_requested, spawn_if, bind. rewrite Ht.
      by rewrite (spawn_missing os _ _ Hmissing).
  - intros Hw Hmissing st2 Hfirst. split.
    + apply (main_spawn_raises os _ _ _ _ _ _ Hs).
      * by rewrite Hw, orb_true_r.
      * unfold spawn_requested, bind. rewrite Hfirst, Hw.
        unfold spawn_if, bind. by rewrite (spawn_missing os _ _ Hmissing).
    + destruct (spawn_if_spec os _ _ _ _ _ Hfirst) as (_ & evs & He & Hall).
      exists evs. simpl in He. split; [by rewrite He, Hev|].
      eapply Forall_impl; [exact Hall|]. apply spawns_not_cleanup.
Qed.

Lemma C4_witness :
  main no_wikimedia [Opt_Twitch; Opt_Wikimedia] fresh
  = (State ∅ [0%nat] [EvPopen "twitch.py" ∅ true (Return 0%nat)],
     Raise (Exc (FileNotFoundError "avicbotirc.py"))).
Proof.
  edestruct (C4_missing_script_is_fatal no_wikimedia
               [Opt_Twitch; Opt_Wikimedia] fresh)
    as (_ & _ & Hwiki); [reflexivity|].
  edestruct Hwiki as [-> _]; reflexivity.
Defined.

(** C5, as stated, fails: [--version] gives neither child flag, and the
    run prints the version and leaves with status 0 from inside
    [parse_args]. *)
Lemma C5_counterexample : ¬ usage_without_flags.
Proof.
  intros H. destruct (H both_exit [Opt_version] fresh eq_refl) as (st' & Hrun & _).
  discriminate Hrun.
Qed.

(** C5, amended.  An invocation without a child flag never spawns a
    process; and when its arguments parse and the .env file loads, [main]
    prints the help on the error stream, does nothing else, and returns
    2. *)
Theorem C5_usage_when_nothing_requested (os : OS)
    (argv : list option_string) (st : state) :
  request_order argv = [] →
  ∃ st' r evs,
    main os argv st = (st', r)
    ∧ procs st' = procs st
    ∧ events st' = events st ++ evs
    ∧ Forall (λ e, spawns e = false) evs
    ∧ (∀ st1 args, startup os argv st = (st1, Return args) →
         r = Return 2%Z ∧ evs = [EvPrintHelp Stderr]).
Proof.
  intros Hnone. rewrite main_after_startup.
  destruct (startup os argv st) as [st1 [args|e]] eqn:Hs.
  - destruct (startup_returns os _ _ _ _ Hs) as (Hev & Hp & Ht & Hw).
    rewrite (request_order_nil _ Twitch Hnone) in Ht.
    rewrite (request_order_nil _ Wikimedia Hnone) in Hw.
    rewrite Ht, Hw. simpl.
    exists (log st1 (EvPrintHelp Stderr)), (Return 2%Z), [EvPrintHelp Stderr].
    simpl. rewrite Hev. repeat split; [done | by repeat constructor].
  - destruct (startup_events os _ _ _ _ Hs) as (Hp & evs & Hev & Hall).
    exists st1, (Raise e), evs. repeat split; try done.
    all: intros; discriminate.
Qed.

Lemma C5_witness :
  (main both_exit [] fresh).2 = Return 2%Z
  ∧ events (main both_exit [] fresh).1 = [EvPrintHelp Stderr].
Proof.
  destruct (C5_usage_when_nothing_requested both_exit [] fresh eq_refl)
    as (st' & r & evs & -> & _ & Hev & _ & Hdone).
  simpl. rewrite Hev.
  by destruct (Hdone fresh {| twitch := false; wikimedia := false |} eq_refl)
    as [-> ->].
Defined.

(** C8, as stated, fails: a wait of 5 seconds that ends in
    [KeyboardInterrupt] is an outcome [except Exception] does not swallow,
    and the handler raises. *)
Lemma C8_counterexample : ¬ termination_never_raises.
Proof.
  intros H.
  destruct (H interrupted_twice (State ∅ [0%nat] [])) as (st' & rc & Hrun).
  discriminate Hrun.
Qed.

(** C8, amended.  [_terminate] never raises, whatever the poll and the
    signals answer: it polls the child, asks it to stop if it runs, and
    falls back on [proc.terminate()] when the poll or the request fails.
    For each child in turn the handler then waits 5 seconds and kills the
    child by force exactly when the wait fails with an [Exception], and
    every such failure - of poll, signal, wait or kill - is swallowed.  What
    is not swallowed is an interrupt of one of these waits: it ends the
    handler there.  Without one the handler ends with 130. *)
Theorem C8_termination_swallows_exceptions (os : OS) (st : state) :
  (∀ p st0, ∃ st1 seg,
     _terminate os p st0 = (st1, Return tt)
     ∧ events st1 = events st0 ++ seg
     ∧ stops os p (events st0) seg)
  ∧ (∀ p st0, ∃ st1 seg,
       reap os p st0
       = (st1, match breaks os p (events st0) with
               | None => Return tt
               | Some e => Raise e
               end)
       ∧ events st1 = events st0 ++ seg
       ∧ reaps os p (events st0) seg)
  ∧ ∃ st' r,
      main_except os st = (st', r)
      ∧ drained os (procs st) (events st) (events st') r
      ∧ (grace_uninterrupted os → r = Return 130%Z)
      ∧ (r = Return 130%Z ∨ ∃ e, r = Raise e ∧ is_Exception e = false).
Proof.
  split; [|split].
  - intros p st0.
    destruct (terminate_spec os p st0) as (st1 & seg & H & _ & _ & Hev & Hseg).
    by exists st1, seg.
  - intros p st0.
    destruct (reap_spec os p st0) as (st1 & seg & H & _ & _ & Hev & Hseg).
    by exists st1, seg.
  - destruct (main_except_spec os st) as (st' & r & H & _ & _ & Hdrained).
    exists st', r. split; [done|]. split; [done|]. split.
    + intros Hnone. by eapply drained_uninterrupted.
    + by eapply drained_result.
Qed.

Lemma C8_witness :
  main_except interrupted (State ∅ [0; 1]%nat [])
  = (State ∅ [0; 1]%nat
       [EvPoll 0%nat (Return None); EvKillpg 0%nat SIGTERM (Return tt);
        EvPoll 1%nat (Return None); EvKillpg 1%nat SIGTERM (Return tt);
        EvWaitTimeout 0%nat 5%Z (Return (-15)%Z);
        EvWaitTimeout 1%nat 5%Z (Raise (Exc TimeoutExpired));
        EvKillpg 1%nat SIGKILL (Raise ProcessLookupError)],
     Return 130%Z).
Proof.
  destruct (C8_termination_swallows_exceptions interrupted
              (State ∅ [0; 1]%nat []))
    as (_ & _ & st' & r & Hrun & _).
  reflexivity.
Defined.

(** C9, as stated, fails: with [--Wikimedia --Twitch] the Wikimedia bot is
    requested first and the Twitch bot is waited on first. *)
Lemma C9_counterexample : ¬ waits_in_request_order.
Proof.
  intros H.
  assert (Hrun :
    main both_exit [Opt_Wikimedia; Opt_Twitch] (State ∅ [] [])
    = (State ∅ [0; 1]%nat
         [EvPopen "twitch.py" ∅ true (Return 0%nat);
          EvPopen "avicbotirc.py" ∅ true (Return 1%nat);
          EvWait 0%nat (Return 0%Z); EvWait 1%nat (Return 5%Z)],
       Return 5%Z)) by reflexivity.
  specialize (H both_exit [Opt_Wikimedia; Opt_Twitch] _ _ _ eq_refl Hrun).
  simpl in H.
  assert (Hpids : NoDup [0; 1]%nat).
  { apply NoDup_cons. split; [|apply NoDup_singleton].
    by intros [=]%list_elem_of_singleton. }
  discriminate (H Hpids).
Qed.

(** C9, amended.  When both children are requested - whatever the order
    and the spelling of the two flags - the Twitch bot is spawned first and
    the Wikimedia bot second, and [main] waits on them in that order. *)
Theorem C9_waits_in_spawn_order (os : OS) (argv : list option_string)
    (st st1 st2 : state) (args : Namespace) (rcs : list Z)
    (evs' : list event) :
  mentions Twitch argv = true →
  mentions Wikimedia argv = true →
  startup os argv st = (st1, Return args) →
  spawn_requested os args (set_procs st1 []) = (st2, Return tt) →
  exits_with os (events st2) (procs st2) rcs evs' →
  ∃ p1 p2 rc1 rc2,
    main os argv st
    = (State (environ st1) [p1; p2] evs', Return (aggregate_result [rc1; rc2]))
    ∧ evs' = events st ++
        [EvPopen "twitch.py" (environ st1) (negb (nt os)) (Return p1);
         EvPopen "avicbotirc.py" (environ st1) (negb (nt os)) (Return p2);
         EvWait p1 (Return rc1); EvWait p2 (Return rc2)].
Proof.
  intros Ht Hw Hs Hsp Hexit.
  destruct (startup_returns os _ _ _ _ Hs) as (Hev & _ & Hta & Hwa).
  rewrite Ht in Hta. rewrite Hw in Hwa.
  destruct (spawn_requested_both os _ _ _ Hta Hwa Hsp)
    as (p1 & p2 & Hprocs & Henv & Hevs).
  simpl in Hprocs, Henv, Hevs.
  destruct (exits_with_events os _ _ _ _ Hexit) as [Hevs' Hlen].
  rewrite Hprocs in Hlen, Hevs'.
  destruct rcs as [|rc1 [|rc2 [|? ?]]]; try done.
  exists p1, p2, rc1, rc2. split.
  - erewrite main_children_exit; [|exact Hs| by rewrite Hta |exact Hsp|exact Hexit].
    by rewrite Henv, Hprocs.
  - rewrite Hevs', Hevs, Hev, <- app_assoc. done.
Qed.

Lemma C9_witness :
  main both_exit [Opt_wikimedia; Opt_Twitch] fresh
  = (State ∅ [0; 1]%nat
       [EvPopen "twitch.py" ∅ true (Return 0%nat);
        EvPopen "avicbotirc.py" ∅ true (Return 1%nat);
        EvWait 0%nat (Return 0%Z); EvWait 1%nat (Return 5%Z)],
     Return 5%Z).
Proof.
  edestruct (C9_waits_in_spawn_order both_exit [Opt_wikimedia; Opt_Twitch]
               fresh) with (rcs := [0; 5]%Z)
    as (p1 & p2 & rc1 & rc2 & Hrun & _);
    [reflexivity | reflexivity | reflexivity | reflexivity | | reflexivity].
  eapply exits_cons; [reflexivity|].
  eapply exits_cons; [reflexivity|]. apply exits_nil.
Defined.

(* ================================================================== *)
(** * Worked examples *)
(* ================================================================== *)

Example strip_unicode : strip ([160; 8195] ++ py " a b	" ++ [12288]) = py "a b".
Proof. reflexivity. Qed.

Example splitlines_mixed :
  splitlines [97; 10; 10; 98; 13; 10; 99; 13] = [[97]; []; [98]; [99]].
Proof. reflexivity. Qed.

Example split_on_first_equals : split1 EQUALS (py "a=b=c") = [py "a"; py "b=c"].
Proof. reflexivity. Qed.

Example decode_euro : decode_utf8 [xe2; x82; xac] = Some [8364].
Proof. reflexivity. Qed.

Example decode_overlong : decode_utf8 [xc0; x80] = None.
Proof. reflexivity. Qed.

(** Only the outer pair goes; an inner pair and a backslash stay. *)
Example unquote_once :
  unquote (py (dq ++ dq ++ "a\b" ++ dq ++ dq)) = py (dq ++ "a\b" ++ dq).
Proof. reflexivity. Qed.

Example unquote_mismatch : unquote (py (dq ++ "a'")) = py (dq ++ "a'").
Proof. reflexivity. Qed.

Example unquote_lone_quote : unquote (py dq) = py dq.
Proof. reflexivity. Qed.

(** The sample file, loaded into an empty environment. *)
Example sample_loaded :
  environ (_load_dotenv with_dotenv ".env" fresh).1
  = {[ py "KEY" := py "value with spaces"; py "A" := py "1" ]}.
Proof. vm_compute. reflexivity. Qed.

Example undecodable_dotenv :
  _load_dotenv bad_dotenv ".env" fresh = (fresh, Raise (Exc UnicodeDecodeError)).
Proof. reflexivity. Qed.

Example version_exits :
  main both_exit [Opt_version] fresh
  = (State ∅ [] [EvPrintVersion "AvicBotChat 2026.02"], Raise (SystemExit 0)).
Proof. reflexivity. Qed.

(** The first of [--help] and [--version] decides what is printed. *)
Example help_before_version :
  main both_exit [Opt_h; Opt_version] fresh
  = (State ∅ [] [EvPrintHelp Stdout], Raise (SystemExit 0)).
Proof. reflexivity. Qed.

(** A NUL character in a value stops the load; the next line is not
    reached. *)
Example nul_dotenv_refused :
  _load_dotenv with_nul_dotenv ".env" fresh = (fresh, Raise (Exc ValueError)).
Proof. vm_compute. reflexivity. Qed.

(** A NUL character in the value of a name that is already defined does
    no harm. *)
Example nul_dotenv_defined :
  let st := State {[ py "A" := py "0" ]} [] [] in
  environ (_load_dotenv with_nul_dotenv ".env" st).1
  = {[ py "A" := py "0"; py "B" := py "2" ]}.
Proof. vm_compute. reflexivity. Qed.

(** Under the C locale a value that is not ASCII stops the load. *)
Example euro_dotenv_refused :
  _load_dotenv (under_C_locale with_euro_dotenv) ".env" fresh
  = (fresh, Raise (Exc UnicodeEncodeError)).
Proof. vm_compute. reflexivity. Qed.

Example euro_dotenv_loaded :
  environ (_load_dotenv with_euro_dotenv ".env" fresh).1
  = {[ py "PRICE" := [8364]; py "B" := py "2" ]}.
Proof. vm_compute. reflexivity. Qed.

(** A second interrupt, during the first wait of the handler: both
    children have been asked to stop, neither is waited for to the end or
    killed. *)
Example interrupted_again :
  main interrupted_twice [Opt_Twitch; Opt_Wikimedia] fresh
  = (State ∅ [0; 1]%nat
       [EvPopen "twitch.py" ∅ true (Return 0%nat);
        EvPopen "avicbotirc.py" ∅ true (Return 1%nat);
        EvWait 0%nat (Return 3%Z); EvWait 1%nat (Raise KeyboardInterrupt);
        EvPoll 0%nat (Return None); EvKillpg 0%nat SIGTERM (Return tt);
        EvPoll 1%nat (Return None); EvKillpg 1%nat SIGTERM (Return tt);
        EvWaitTimeout 0%nat 5%Z (Raise KeyboardInterrupt)],
     Raise KeyboardInterrupt).
Proof. reflexivity. Qed.

(** One child that exits with 3. *)
Example one_child_exits_3 :
  (main interrupted [Opt_twitch] fresh).2 = Return 3%Z.
Proof. reflexivity. Qed.

(** The .env file is read before the flags are looked at. *)
Example bad_dotenv_before_usage :
  main bad_dotenv [] fresh = (fresh, Raise (Exc UnicodeDecodeError)).
Proof. reflexivity. Qed.

(* ================================================================== *)
(** * More about lines *)
(* ================================================================== *)

Section stripping.
Implicit Types (s x y k v ws : list N) (c : N).

Lemma lstrip_blank ws : forallb isspace ws = true → lstrip ws = [].
Proof.
  induction ws as [|c ws IH]; simpl; [done|].
  intros [-> H]%andb_prop. by apply IH.
Qed.

Lemma lstrip_nil_blank s : lstrip s = [] → forallb isspace s = true.
Proof.
  induction s as [|c s IH]; simpl; [done|].
  destruct (isspace c); [exact IH | done].
Qed.

Lemma forallb_rev_blank ws : forallb isspace (rev ws) = forallb isspace ws.
Proof.
  induction ws as [|c ws IH]; simpl; [done|].
  rewrite forallb_app, IH. simpl. by rewrite andb_true_r, andb_comm.
Qed.

Lemma lstrip_app_keep x y : lstrip x ≠ [] → lstrip (x ++ y) = lstrip x ++ y.
Proof.
  induction x as [|c x IH]; simpl; [done|].
  destruct (isspace c); [exact IH | done].
Qed.

(** What [lstrip] removes is whitespace. *)
Lemma lstrip_split s : ∃ ws, s = ws ++ lstrip s ∧ forallb isspace ws = true.
Proof.
  induction s as [|c s (ws & IH & Hws)]; [by exists []|].
  simpl. destruct (isspace c) eqn:Hc.
  - exists (c :: ws). simpl. rewrite Hc, Hws. by rewrite <- IH.
  - by exists [].
Qed.

Lemma lstrip_idemp s : lstrip (lstrip s) = lstrip s.
Proof.
  destruct (lstrip s) as [|c r] eqn:H; [done|].
  simpl. by rewrite (lstrip_head _ _ _ H).
Qed.

Lemma rstrip_idemp s : rstrip (rstrip s) = rstrip s.
Proof. unfold rstrip. by rewrite rev_involutive, lstrip_idemp. Qed.

Lemma rstrip_app_blank x ws : forallb isspace ws = true → rstrip (x ++ ws) = rstrip x.
Proof.
  intros H. unfold rstrip. rewrite rev_app_distr.
  rewrite lstrip_app_blank; [done|].
  apply lstrip_blank. by rewrite forallb_rev_blank.
Qed.

(** [rstrip] stops at the last character that is not whitespace. *)
Lemma rstrip_app_cons x c y :
  isspace c = false → rstrip (x ++ c :: y) = x ++ c :: rstrip y.
Proof.
  intros Hc. unfold rstrip.
  replace (rev (x ++ c :: y)) with ((rev y ++ [c]) ++ rev x)
    by (rewrite rev_app_distr; simpl; by rewrite <- app_assoc).
  rewrite lstrip_app_keep.
  - rewrite (lstrip_snoc _ _ Hc), rev_app_distr, rev_involutive.
    rewrite rev_unit. done.
  - rewrite (lstrip_snoc _ _ Hc). by destruct (lstrip (rev y)).
Qed.

Lemma rstrip_blank ws : forallb isspace ws = true → rstrip ws = [].
Proof.
  intros H. unfold rstrip. rewrite lstrip_blank; [done|].
  by rewrite forallb_rev_blank.
Qed.

Lemma lstrip_rstrip s : lstrip (rstrip s) = rstrip (lstrip s).
Proof.
  destruct (lstrip_split s) as (ws & Hs & Hws).
  destruct (lstrip s) as [|c r] eqn:Hl.
  - rewrite app_nil_r in Hs. subst ws.
    by rewrite (rstrip_blank _ Hws).
  - pose proof (lstrip_head _ _ _ Hl) as Hc.
    rewrite Hs, (rstrip_app_cons _ _ _ Hc), (rstrip_cons _ _ Hc).
    rewrite (lstrip_app_blank _ _ (lstrip_blank _ Hws)). simpl. by rewrite Hc.
Qed.

Lemma strip_idemp s : strip (strip s) = strip s.
Proof.
  unfold strip. by rewrite lstrip_rstrip, lstrip_idemp, rstrip_idemp.
Qed.

Lemma strip_lstrip s : strip (lstrip s) = strip s.
Proof. unfold strip. by rewrite lstrip_idemp. Qed.

Lemma strip_rstrip s : strip (rstrip s) = strip s.
Proof. unfold strip. by rewrite lstrip_rstrip, rstrip_idemp. Qed.

(** Whitespace at either end of a line does not reach the parser. *)
Lemma strip_padding ws1 ws2 s :
  forallb isspace ws1 = true → forallb isspace ws2 = true →
  strip (ws1 ++ s ++ ws2) = strip s.
Proof.
  intros H1 H2. unfold strip.
  rewrite (lstrip_app_blank _ _ (lstrip_blank _ H1)).
  destruct (lstrip s) as [|c r] eqn:Hl.
  - rewrite (lstrip_app_blank _ _ Hl), (lstrip_blank _ H2). done.
  - rewrite lstrip_app_keep by (by rewrite Hl).
    rewrite Hl. by apply rstrip_app_blank.
Qed.

Lemma parse_line_strip (a b : list N) : strip a = strip b → parse_line a = parse_line b.
Proof. unfold parse_line. by intros ->. Qed.

(** The stripped form of a line [k=v] whose name part is not blank. *)
Lemma strip_assignment k v :
  lstrip k ≠ [] →
  strip (k ++ EQUALS :: v) = lstrip k ++ EQUALS :: rstrip v.
Proof.
  intros Hk. unfold strip. rewrite (lstrip_app_keep _ _ Hk).
  by apply rstrip_app_cons.
Qed.

End stripping.

(* ================================================================== *)
(** * More about the loader *)
(* ================================================================== *)

Section loader_more.
Implicit Types (raw key val : list N) (st : state) (lines : list (list N)).

Lemma state_eq (a b : state) :
  environ a = environ b → procs a = procs b → events a = events b → a = b.
Proof. destruct a, b. simpl. by intros -> -> ->. Qed.

(** A definition comes from a line of the file, and its name is well
    formed. *)
Lemma parse_line_name raw key val :
  parse_line raw = Return (Some (key, val)) → well_formed_name key.
Proof.
  unfold parse_line. destruct (_ || _); [done|].
  destruct (contains EQUALS (strip raw)) eqn:Hc; [|done].
  destruct (split1_with _ _ Hc) as (k & v & -> & _ & Hk). simpl.
  case_bool_decide as Hne; [done|]. intros [= <- _].
  split; [done|]. split; [by apply contains_strip | apply strip_idemp].
Qed.

Lemma earliest_definition_line key lines val :
  earliest_definition key lines = Some val →
  ∃ raw, raw ∈ lines ∧ parse_line raw = Return (Some (key, val)).
Proof.
  induction lines as [|raw rest IH]; simpl; [done|].
  destruct (parse_line raw) as [[[k v]|]|e] eqn:Hraw.
  - case_bool_decide as Hk.
    + intros [= <-]. subst k. exists raw. split; [by left | done].
    + intros (r & Hin & Hr)%IH. exists r. split; [by right | done].
  - intros (r & Hin & Hr)%IH. exists r. split; [by right | done].
  - intros (r & Hin & Hr)%IH. exists r. split; [by right | done].
Qed.

(** What comes before a part of the file does not matter to a change of
    that part that no run can tell. *)
Lemma load_lines_app_congr os (before l1 l2 : list (list N)) :
  (∀ st, load_lines os l1 st = load_lines os l2 st) →
  ∀ st, load_lines os (before ++ l1) st = load_lines os (before ++ l2) st.
Proof.
  intros Hsame. induction before as [|l before IH]; intros st; simpl; [done|].
  unfold bind at 1 3. destruct (lift (parse_line l) st) as [st1 [[[k v]|]|e]];
    [|apply IH|done].
  unfold bind. destruct (setdefault os k v st1) as [st2 [[]|e]];
    [apply IH|done].
Qed.

(** Two lines that parse alike load alike. *)
Lemma load_lines_parse os (a b : list N) (after : list (list N)) st :
  parse_line a = parse_line b →
  load_lines os (a :: after) st = load_lines os (b :: after) st.
Proof. intros H. simpl. unfold bind at 1 3. by rewrite H. Qed.

Lemma load_lines_keeps os lines st st' r key val :
  load_lines os lines st = (st', r) →
  environ st !! key = Some val → environ st' !! key = Some val.
Proof.
  intros Hrun Hkey.
  destruct (load_lines_spec os lines st)
    as (s & r' & done & rest & Hrun' & _ & _ & _ & Hlook & _).
  rewrite Hrun in Hrun'. injection Hrun' as <- <-. by rewrite Hlook, Hkey.
Qed.

(** Run again on the environment a run has left, the loop changes nothing
    and ends as it did: each line finds its name defined, or is refused
    again. *)
Lemma load_lines_again os lines st st' r s :
  load_lines os lines st = (st', r) →
  environ s = environ st' →
  load_lines os lines s = (s, r).
Proof.
  revert st. induction lines as [|raw lines IH]; intros st.
  - simpl. by intros [= <- <-] _.
  - destruct (parse_line_total raw) as [o Ho].
    simpl. unfold bind at 1 3. rewrite Ho. simpl.
    destruct o as [[k v]|]; [|apply IH].
    unfold bind. rewrite (setdefault_spec os k v st).
    destruct (refusal os (environ st) k v) as [e|] eqn:Hrefusal.
    { intros [= <- <-] Henv. by rewrite setdefault_spec, Henv, Hrefusal. }
    pose proof (refusal_encodes _ _ _ _ Hrefusal) as Hk_enc.
    destruct (environ st !! k) as [old|] eqn:Hk; intros Hrun Henv.
    + pose proof (load_lines_keeps _ _ _ _ _ _ _ Hrun Hk) as Hk'.
      rewrite <- Henv in Hk'.
      rewrite (setdefault_defined _ _ _ _ _ Hk_enc Hk'). by eapply IH.
    + assert (Hk' : environ st' !! k = Some v).
      { eapply load_lines_keeps; [exact Hrun|]. simpl.
        apply lookup_insert_eq. }
      rewrite <- Henv in Hk'.
      rewrite (setdefault_defined _ _ _ _ _ Hk_enc Hk'). by eapply IH.
Qed.

Lemma load_lines_twice os lines st :
  load_lines os lines (load_lines os lines st).1 = load_lines os lines st.
Proof.
  destruct (load_lines os lines st) as [st' r] eqn:Hrun. simpl.
  by apply (load_lines_again _ _ _ _ _ _ Hrun).
Qed.

(** Two lines that store under different names can change places. *)
Lemma load_lines_swap os (a b ka va kb vb : list N)
    (after : list (list N)) st :
  parse_line a = Return (Some (ka, va)) →
  parse_line b = Return (Some (kb, vb)) →
  ka ≠ kb →
  storable os ka va = true →
  storable os kb vb = true →
  load_lines os (a :: b :: after) st = load_lines os (b :: a :: after) st.
Proof.
  intros Ha Hb Hne Hna Hnb. simpl. unfold bind, lift, ret.
  rewrite Ha, Hb. simpl. rewrite !setdefault_spec.
  rewrite !(refusal_storable _ _ _ _ Hna), !(refusal_storable _ _ _ _ Hnb).
  destruct (environ st !! ka) eqn:Hka, (environ st !! kb) eqn:Hkb; simpl;
    rewrite ?setdefault_spec, ?(refusal_storable _ _ _ _ Hna),
      ?(refusal_storable _ _ _ _ Hnb); simpl;
    rewrite ?lookup_insert_ne, ?Hka, ?Hkb by done; try done.
  unfold set_environ. simpl. by rewrite insert_insert_ne.
Qed.

End loader_more.

(** X1. Loading is idempotent: a second [_load_dotenv] on the same file
    ends as the first did and leaves the state the first one left. *)
Theorem X1_load_twice (os : OS) (path : string) (st : state) :
  _load_dotenv os path (_load_dotenv os path st).1 = _load_dotenv os path st.
Proof.
  destruct (exists_ (fs os path) && is_file (fs os path)) eqn:Hf.
  - destruct (read_text path (fs os path)) as [text|e] eqn:Hr.
    + rewrite !(load_dotenv_text _ _ _ _ Hf Hr). apply load_lines_twice.
    + by rewrite !(load_dotenv_unreadable _ _ _ _ Hf Hr).
  - by rewrite !(load_dotenv_no_file _ _ _ Hf).
Qed.

(** X2. Whitespace before and after a line makes no difference: the padded
    line parses as the bare one, and the loader run is the same with
    either. *)
Theorem X2_padding_ignored (os : OS) (ws1 ws2 raw : list N)
    (before after : list (list N)) (st : state) :
  forallb isspace ws1 = true →
  forallb isspace ws2 = true →
  parse_line (ws1 ++ raw ++ ws2) = parse_line raw
  ∧ load_lines os (before ++ (ws1 ++ raw ++ ws2) :: after) st
    = load_lines os (before ++ raw :: after) st.
Proof.
  intros H1 H2.
  assert (Hparse : parse_line (ws1 ++ raw ++ ws2) = parse_line raw)
    by (apply parse_line_strip; by apply strip_padding).
  split; [done|]. apply load_lines_app_congr. intros s.
  by apply load_lines_parse.
Qed.

Lemma X2_witness :
  parse_line ([9; 32; 160] ++ py "A=1" ++ [32; 12288; 13]) = parse_line (py "A=1").
Proof.
  by destruct (X2_padding_ignored both_exit [9; 32; 160] [32; 12288; 13]
                 (py "A=1") [] [] fresh eq_refl eq_refl).
Defined.

(** X3. A line [k=v] in which [k] holds no [=], is not blank and does not
    begin (after whitespace) with [#] defines the name [k] stripped of
    whitespace as the value [v] stripped and unquoted: the split is at the
    first [=], and any further [=] or [#] stays in the value. *)
Theorem X3_assignment (k v : list N) :
  contains EQUALS k = false →
  strip k ≠ [] →
  head (lstrip k) ≠ Some HASH →
  parse_line (k ++ EQUALS :: v) = Return (Some (strip k, unquote (strip v))).
Proof.
  intros Hk Hne Hhash.
  assert (Hl : lstrip k ≠ []) by (intros H; by apply strip_nil in H).
  pose proof (strip_assignment k v Hl) as Hs.
  rewrite <- (strip_lstrip k), <- (strip_rstrip v).
  apply parse_line_fields.
  - rewrite Hs. by destruct (lstrip k).
  - rewrite Hs. destruct (lstrip k) as [|c r]; [done|]. simpl in *.
    destruct (N.eqb_spec c HASH) as [->|]; [done | done].
  - rewrite Hs. apply split1_first. by apply contains_lstrip.
  - by rewrite strip_lstrip.
Qed.

Lemma X3_witness :
  parse_line (py " URL " ++ EQUALS :: py " http://h/?a=b#c ")
  = Return (Some (py "URL", py "http://h/?a=b#c")).
Proof. by rewrite X3_assignment. Defined.

(** X4. The loader invents nothing: a name that is defined after loading
    and was not before is well formed - not empty, without [=], without
    whitespace at either end - and it and its value are what some line of
    the file parses to. *)
Theorem X4_new_names_come_from_the_file (os : OS) (path : string)
    (st : state) (key val : list N) :
  environ st !! key = None →
  environ (_load_dotenv os path st).1 !! key = Some val →
  well_formed_name key
  ∧ ∃ raw, raw ∈ file_lines path (fs os path)
      ∧ parse_line raw = Return (Some (key, val)).
Proof.
  intros Hold Hnew.
  pose proof (load_dotenv_new _ _ _ _ _ Hold Hnew) as Hline.
  destruct (earliest_definition_line _ _ _ Hline) as (raw & Hin & Hraw).
  split; [by eapply parse_line_name | by exists raw].
Qed.

Lemma X4_witness : well_formed_name (py "A").
Proof.
  by destruct (X4_new_names_come_from_the_file with_dotenv ".env" fresh
                 (py "A") (py "1") eq_refl eq_refl).
Defined.

(** X5. Two neighbouring lines that define different names, each with a
    name and a value [os.environ] accepts, can change places without
    changing what the loader does. *)
Theorem X5_lines_for_different_names_commute (os : OS)
    (a b ka va kb vb : list N)
    (before after : list (list N)) (st : state) :
  parse_line a = Return (Some (ka, va)) →
  parse_line b = Return (Some (kb, vb)) →
  ka ≠ kb →
  storable os ka va = true →
  storable os kb vb = true →
  load_lines os (before ++ a :: b :: after) st
  = load_lines os (before ++ b :: a :: after) st.
Proof.
  intros Ha Hb Hne Hna Hnb. apply load_lines_app_congr. intros s.
  by eapply load_lines_swap.
Qed.

Lemma X5_witness :
  load_lines both_exit [py "A=1"; py "B=2"; py "A=3"] fresh
  = load_lines both_exit [py "B=2"; py "A=1"; py "A=3"] fresh.
Proof.
  by apply (X5_lines_for_different_names_commute both_exit _ _
              (py "A") (py "1") (py "B") (py "2") []).
Defined.

(* ================================================================== *)
(** * What a file can hold *)
(* ================================================================== *)

Section decoding.

Local Ltac bounds :=
  unfold NUL, second_ok, cont, between in *;
  repeat match goal with
         | H : _ && _ = true |- _ => apply andb_prop in H as [? ?]
         | H : (_ <=? _) = true |- _ => apply N.leb_le in H
         | H : (_ <? _) = true |- _ => apply N.ltb_lt in H
         | H : (_ <? _) = false |- _ => apply N.ltb_ge in H
         | H : (_ =? _) = true |- _ => apply N.eqb_eq in H
         | H : (_ =? _) = false |- _ => apply N.eqb_neq in H
         | H : context [if ?b then _ else _] |- _ => destruct b eqn:?
         end.

Lemma below_surrogates c : c < 55296 → utf8_encodable c = true.
Proof.
  intros H. unfold utf8_encodable, between.
  replace (55296 <=? c) with false; [done|]. symmetry. apply N.leb_gt. lia.
Qed.

Lemma above_surrogates c : 57343 < c → utf8_encodable c = true.
Proof.
  intros H. unfold utf8_encodable, between.
  replace (c <=? 57343) with false; [by rewrite andb_false_r|].
  symmetry. apply N.leb_gt. lia.
Qed.

(** The strict decoder yields no surrogate, and a NUL character only for
    a NUL byte. *)
Lemma decode_from_chars (n : nat) (bs : list N) text :
  (length bs ≤ n)%nat →
  decode_from bs = Some text →
  forallb utf8_encodable text = true
  ∧ (contains NUL bs = false → contains NUL text = false).
Proof.
  unfold contains.
  revert bs text. induction n as [|n IH]; intros [|b0 r0] text Hn;
    cbn [length decode_from existsb forallb] in *;
    try lia; try (by intros [= <-]).
  destruct (b0 <? 128) eqn:H0.
  { destruct (decode_from r0) as [t|] eqn:Hr; [|done]. intros [= <-].
    destruct (IH r0 t) as [He Hz]; [lia|done|].
    cbn [existsb forallb].
    split.
    - rewrite He, andb_true_r. apply below_surrogates. bounds. lia.
    - intros [Hb Hrest]%orb_false_elim. by rewrite Hb, (Hz Hrest). }
  destruct (between 194 223 b0) eqn:H1.
  { destruct r0 as [|b1 r1]; [done|]. destruct (cont b1) eqn:Hc; [|done].
    destruct (decode_from r1) as [t|] eqn:Hr; [|done]. intros [= <-].
    destruct (IH r1 t) as [He Hz]; [simpl in Hn; lia|done|].
    cbn [existsb forallb].
    split.
    - rewrite He, andb_true_r. apply below_surrogates. bounds. lia.
    - intros [Hb [Hb1 Hrest]%orb_false_elim]%orb_false_elim.
      rewrite (Hz Hrest), orb_false_r. apply N.eqb_neq. bounds. lia. }
  destruct (between 224 239 b0) eqn:H2.
  { destruct r0 as [|b1 [|b2 r2]]; try done.
    destruct (second_ok b0 b1 && cont b2) eqn:Hc; [|done].
    destruct (decode_from r2) as [t|] eqn:Hr; [|done]. intros [= <-].
    destruct (IH r2 t) as [He Hz]; [simpl in Hn; lia|done|].
    cbn [existsb forallb].
    split.
    - rewrite He, andb_true_r.
      destruct (N.lt_ge_cases b0 238) as [Hlt|Hge].
      + apply below_surrogates. bounds; lia.
      + apply above_surrogates. bounds; lia.
    - intros [Hb [Hb1 [Hb2 Hrest]%orb_false_elim]%orb_false_elim]%orb_false_elim.
      rewrite (Hz Hrest), orb_false_r. apply N.eqb_neq. bounds; lia. }
  destruct (between 240 244 b0) eqn:H3; [|done].
  destruct r0 as [|b1 [|b2 [|b3 r3]]]; try done.
  destruct (second_ok b0 b1 && cont b2 && cont b3) eqn:Hc; [|done].
  destruct (decode_from r3) as [t|] eqn:Hr; [|done]. intros [= <-].
  destruct (IH r3 t) as [He Hz]; [simpl in Hn; lia|done|].
  cbn [existsb forallb].
  split.
  - rewrite He, andb_true_r. apply above_surrogates. bounds; lia.
  - intros [Hb [Hb1 [Hb2 [Hb3 Hrest]%orb_false_elim]%orb_false_elim]
             %orb_false_elim]%orb_false_elim.
    rewrite (Hz Hrest), orb_false_r. apply N.eqb_neq. bounds; lia.
Qed.

Lemma decode_utf8_chars (content : list byte) text :
  decode_utf8 content = Some text →
  forallb utf8_encodable text = true
  ∧ (x00 ∉ content → contains NUL text = false).
Proof.
  intros Hd.
  destruct (decode_from_chars (length (map Byte.to_N content)) _ _
              (le_n _) Hd) as [He Hz].
  split; [done|]. intros Hnul. apply Hz. clear -Hnul.
  induction content as [|b content IH]; [done|].
  apply not_elem_of_cons in Hnul as [Hb Hrest]. simpl.
  rewrite (IH Hrest), orb_false_r.
  destruct b; first [reflexivity | congruence].
Qed.

End decoding.

(** X18. Where the filesystem encoding is UTF-8, [os.environ] refuses
    nothing a file without a NUL byte can hold: such a configuration file
    is loaded to the end when it is valid UTF-8, and otherwise makes the
    loader raise [UnicodeDecodeError] before anything is set. *)
Theorem X18_utf8_machine (os : OS) (path : string) (st : state)
    (content : list byte) :
  (∀ c, fsencodable os c = utf8_encodable c) →
  fs os path = Regular content →
  x00 ∉ content →
  match decode_utf8 content with
  | Some _ => ∃ st', _load_dotenv os path st = (st', Return tt)
  | None => _load_dotenv os path st = (st, Raise (Exc UnicodeDecodeError))
  end.
Proof.
  intros Hutf8 Hf Hnul.
  destruct (decode_utf8 content) as [text|] eqn:Hd.
  - destruct (decode_utf8_chars _ _ Hd) as [He Hz].
    destruct (load_dotenv_decoded os path st _ _ Hf Hd)
      as (st' & r & Hrun & Hclean & _).
    exists st'. rewrite Hrun, Hclean; [done| |by apply Hz].
    unfold encodes. rewrite <- He. clear -Hutf8.
    induction text as [|c text IH]; simpl; [done|]. by rewrite Hutf8, IH.
  - apply load_dotenv_unreadable; rewrite Hf; [done|]. simpl. by rewrite Hd.
Qed.

Lemma X18_witness :
  ∃ st', _load_dotenv with_euro_dotenv ".env" fresh = (st', Return tt).
Proof.
  apply (X18_utf8_machine with_euro_dotenv ".env" fresh euro_dotenv);
    [done | done |].
  intros H. vm_compute in H.
  repeat (apply elem_of_cons in H as [H|H]; [discriminate|]).
  by apply elem_of_nil in H.
Defined.

(* ================================================================== *)
(** * Every run of [main] *)
(* ================================================================== *)

Section runs.
Context (os : OS).
Implicit Types (st : state) (p : pid) (ps : list pid) (evs : list event).

Lemma main_run argv st st' r :
  main os argv st = (st', r) →
  (∃ e, startup os argv st = (st', Raise e) ∧ r = Raise e)
  ∨ ∃ st1 args, startup os argv st = (st1, Return args) ∧
      ((twitch args = false ∧ wikimedia args = false
        ∧ st' = log st1 (EvPrintHelp Stderr) ∧ r = Return 2%Z)
       ∨ (twitch args || wikimedia args = true
          ∧ ∃ st2 rs, spawn_requested os args (set_procs st1 []) = (st2, rs) ∧
              match rs with
              | Return _ =>
                  ∃ st3 rw, wait_loop os (procs st2) 0 st2 = (st3, rw) ∧
                    match rw with
                    | Return c => st' = st3 ∧ r = Return c
                    | Raise e =>
                        if is_KeyboardInterrupt e
                        then main_except os st3 = (st', r)
                        else st' = st3 ∧ r = Raise e
                    end
              | Raise e =>
                  if is_KeyboardInterrupt e
                  then main_except os st2 = (st', r)
                  else st' = st2 ∧ r = Raise e
              end)).
Proof.
  rewrite main_after_startup.
  destruct (startup os argv st) as [st1 [args|e]] eqn:Hs.
  - intros Hrun. right. exists st1, args. split; [done|].
    destruct (negb (twitch args) && negb (wikimedia args)) eqn:Hf.
    + left. apply andb_prop in Hf as [Ht%negb_true_iff Hw%negb_true_iff].
      simplify_eq/=; auto.
    + right. split; [by destruct (twitch args), (wikimedia args)|].
      unfold try_except in Hrun. rewrite main_try_after_spawn in Hrun.
      destruct (spawn_requested os args (set_procs st1 [])) as [st2 [[]|e]].
      * exists st2. eexists. split; [reflexivity|].
        destruct (wait_loop os (procs st2) 0 st2) as [st3 [c|e]].
        -- exists st3. eexists. split; [reflexivity|]. simplify_eq/=; auto.
        -- exists st3. eexists. split; [reflexivity|].
           simpl. destruct (is_KeyboardInterrupt e); simplify_eq/=; auto.
      * exists st2. eexists. split; [reflexivity|].
        simpl. destruct (is_KeyboardInterrupt e); simplify_eq/=; auto.
  - intros [= <- <-]. left. by exists e.
Qed.

Local Ltac run :=
  unfold try_except, bind, call, ret, raise, emit, log, set_procs; simpl.

Lemma spawn_requested_log args st st2 rs :
  spawn_requested os args st = (st2, rs) →
  environ st2 = environ st
  ∧ ∃ sp, events st2 = events st ++ sp
      ∧ procs st2 = procs st ++ started sp
      ∧ Forall (λ e, ∃ s o, e = EvPopen s (environ st) (negb (nt os)) o) sp
      ∧ scripts_of sp `prefix_of` wanted args
      ∧ match rs with
        | Return _ => scripts_of sp = wanted args
                      ∧ length (started sp) = length sp
                      ∧ saw_interrupt sp = false
        | Raise e => saw_interrupt sp = is_KeyboardInterrupt e
        end.
Proof.
  unfold spawn_requested, spawn_if, _spawn, procs_append, wanted. run.
  destruct (twitch args), (wikimedia args); simpl;
    repeat (case_match; simplify_eq/=); intros [= <- <-]; simpl;
    (split; [done|]);
    rewrite <- ?app_assoc; simpl;
    first [ exists []; split; [by rewrite app_nil_r|]
          | eexists [_]; split; [reflexivity|]
          | eexists [_; _]; split; [reflexivity|] ]; simpl;
    (split; [try rewrite app_nil_r; done|]).
  all: (split; [repeat constructor; by eexists _, _|]).
  all: (split; [ first [ by exists [] | by eexists [_] | by eexists [_; _] ] |]).
  all: try done. all: by destruct e.
Qed.

Lemma wait_loop_log ps c st st' r :
  wait_loop os ps c st = (st', r) →
  environ st' = environ st ∧ procs st' = procs st
  ∧ ∃ ws, events st' = events st ++ ws
      ∧ Forall (λ e, ∃ p o, e = EvWait p o ∧ p ∈ ps) ws
      ∧ match r with
        | Return c' =>
            c' = (if (c =? 0)%Z then aggregate_result (exit_codes ws) else c)
            ∧ length (exit_codes ws) = length ps
            ∧ saw_interrupt ws = false
        | Raise e => saw_interrupt ws = is_KeyboardInterrupt e
        end.
Proof.
  revert c st. induction ps as [|p ps IH]; intros c st; simpl.
  - intros [= <- <-]. repeat split. exists []. rewrite app_nil_r.
    repeat split; [constructor|]. simpl. by destruct (Z.eqb_spec c 0) as [->|].
  - unfold bind, wait, call.
    destruct (wait_ os (events st) p) as [rc|e] eqn:Hw.
    + intros Hrest.
      assert (∃ c1, wait_loop os ps c1 (log st (EvWait p (Return rc))) = (st', r)
                ∧ c1 = (if negb (rc =? 0)%Z && (c =? 0)%Z then rc else c))
        as (c1 & Hrun & Hc1) by (destruct (_ && _); eauto).
      destruct (IH _ _ Hrun) as (He & Hp & ws & Hev & Hall & Hr).
      split; [done|]. split; [done|].
      exists (EvWait p (Return rc) :: ws). simpl in Hev.
      split; [by rewrite Hev, <- app_assoc|]. split.
      * constructor; [exists p, (Return rc); split; [done | by left]|].
        eapply Forall_impl; [exact Hall|].
        intros e (q & o & -> & Hq). exists q, o. split; [done | by right].
      * destruct r as [c'|e]; simpl; [|done].
        destruct Hr as (-> & Hlen & Hint). rewrite Hlen. repeat split; [|done].
        subst c1.
        destruct (rc =? 0)%Z eqn:Hrc, (c =? 0)%Z eqn:Hc; simpl;
          by rewrite ?Hrc, ?Hc.
    + intros [= <- <-]. split; [done|]. split; [done|].
      exists [EvWait p (Raise e)]. split; [done|]. split.
      * repeat constructor. exists p, (Raise e). split; [done | by left].
      * simpl. by destruct e.
Qed.

(** What [_terminate] logs for one child, and what the grace loop
    does. *)
Lemma stops_entries p evs seg : stops os p evs seg → stop_entries p seg.
Proof.
  unfold stops, stop_entries, stop_answer, stop_request.
  repeat case_match; intros ->; (split; [done|]); by repeat constructor.
Qed.

Lemma reaps_entries p evs seg : reaps os p evs seg → grace_entries os p seg.
Proof.
  unfold reaps, grace_entries.
  destruct (wait_timeout_ os evs p 5) as [rc|e]; [intros ->; left; eauto|].
  destruct e as [x| |]; simpl; intros ->;
    [right; left; eauto
    | right; right; (eexists; split; [|reflexivity]; reflexivity) ..].
Qed.

Lemma stop_round_shape ps evs evs' :
  stop_round os ps evs evs' →
  ∃ req, evs' = evs ++ concat req ∧ Forall2 stop_entries ps req.
Proof.
  induction 1 as [evs | p ps evs seg evs' Hseg _ (req & -> & Hreq)].
  - exists []. by rewrite app_nil_r.
  - exists (seg :: req). simpl. rewrite <- app_assoc. split; [done|].
    constructor; [by eapply stops_entries | done].
Qed.

(** The grace round covers the first children of the list: all of them
    when it gets to its end; otherwise it stops with the wait that was cut
    short. *)
Lemma grace_round_shape ps evs evs' b :
  grace_round os ps evs evs' b →
  ∃ done grace,
    evs' = evs ++ concat grace
    ∧ done `prefix_of` ps
    ∧ Forall2 (grace_entries os) done grace
    ∧ match b with
      | None => done = ps
      | Some e =>
          is_Exception e = false
          ∧ ∃ q grace', grace = grace' ++ [[EvWaitTimeout q 5 (Raise e)]]
      end.
Proof.
  induction 1 as [evs | p ps evs seg evs' b Hb Hseg _
                          (done & grace & -> & Hpre & Hall & Hend)
                        | p ps evs e He].
  - exists [], []. by rewrite app_nil_r.
  - exists (p :: done), (seg :: grace). simpl. rewrite <- app_assoc.
    split; [done|]. split; [by apply prefix_cons|].
    split; [constructor; [by eapply reaps_entries | done]|].
    destruct b as [e|]; [|by subst].
    destruct Hend as (Hk & q & grace' & ->).
    split; [done|]. by exists q, (seg :: grace').
  - assert (Hk : is_Exception e = false).
    { unfold breaks in He. destruct (wait_timeout_ os evs p 5); [done|].
      destruct (is_Exception _) eqn:Hk; [done|]. by injection He as <-. }
    exists [p], [[EvWaitTimeout p 5 (Raise e)]]. simpl.
    split; [done|]. split; [by apply prefix_cons, prefix_nil|].
    split; [|split; [done | by exists p, []]].
    constructor; [|constructor]. right. right. by exists e.
Qed.

Lemma Forall2_concat {A} (R : A → list event → Prop) (P : event → Prop)
    (l : list A) (segs : list (list event)) :
  Forall2 R l segs →
  (∀ x seg, x ∈ l → R x seg → Forall P seg) →
  Forall P (concat segs).
Proof.
  induction 1 as [|x seg l segs HR _ IH]; intros HP; simpl; [constructor|].
  apply Forall_app. split; [apply (HP x); [by left | done]|].
  apply IH. intros y s Hy. apply HP. by right.
Qed.

Lemma main_except_shape st :
  ∃ st' r req done grace,
    main_except os st = (st', r)
    ∧ environ st' = environ st ∧ procs st' = procs st
    ∧ events st' = events st ++ concat req ++ concat grace
    ∧ Forall2 stop_entries (procs st) req
    ∧ done `prefix_of` procs st
    ∧ Forall2 (grace_entries os) done grace
    ∧ match r with
      | Return rc => rc = 130%Z ∧ done = procs st
      | Raise e =>
          is_Exception e = false
          ∧ ∃ q grace', grace = grace' ++ [[EvWaitTimeout q 5 (Raise e)]]
      end.
Proof.
  destruct (main_except_spec os st)
    as (st' & r & Hrun & He & Hp & mid & b & Hstop & Hgrace & ->).
  destruct (stop_round_shape _ _ _ Hstop) as (req & -> & Hreq).
  destruct (grace_round_shape _ _ _ _ Hgrace)
    as (done & grace & Hev & Hpre & Hgr & Hend).
  exists st', (match b with None => Return 130%Z | Some e => Raise e end),
    req, done, grace.
  split; [done|]. split; [done|]. split; [done|].
  split; [by rewrite Hev, app_assoc|]. split; [done|]. split; [done|].
  split; [done|]. by destruct b.
Qed.

Lemma grace_entries_phase p seg :
  grace_entries os p seg →
  Forall (λ e, grace_phase e = true ∧ target e = Some p) seg.
Proof.
  unfold grace_entries, forced_kill.
  intros [(rc & ->) | [(x & o & ->) | (e & _ & ->)]].
  - by repeat constructor.
  - constructor; [done|]. constructor; [by destruct (nt os) | constructor].
  - by repeat constructor.
Qed.

Lemma stop_phase_cleans e : stop_phase e = true → cleans e = true.
Proof. by destruct e. Qed.
Lemma grace_phase_cleans e : grace_phase e = true → cleans e = true.
Proof. by destruct e. Qed.

(** Everything the handler logs is clean-up aimed at a child of [procs];
    it ends with 130, or in what cut a wait short. *)
Lemma main_except_log st st' r :
  main_except os st = (st', r) →
  (r = Return 130%Z ∨ ∃ e, r = Raise e ∧ is_Exception e = false)
  ∧ environ st' = environ st ∧ procs st' = procs st
  ∧ ∃ cl, events st' = events st ++ cl
      ∧ Forall (λ e, cleans e = true
                     ∧ ∃ p, target e = Some p ∧ p ∈ procs st) cl.
Proof.
  destruct (main_except_shape st)
    as (s & r' & req & done & grace & -> & He & Hp & Hev & Hreq & Hpre & Hgr
        & Hend).
  intros [= <- <-]. split; [|split; [done|split; [done|]]].
  - destruct r' as [rc|e]; [left; by destruct Hend as [-> _]|].
    right. exists e. by destruct Hend as [? _].
  - exists (concat req ++ concat grace). split; [done|].
    apply Forall_app. split.
    + eapply Forall2_concat; [exact Hreq|].
      intros p seg Hin [_ Hall]. eapply Forall_impl; [exact Hall|].
      intros e [H1 H2]. split; [by apply stop_phase_cleans | eauto].
    + eapply Forall2_concat; [exact Hgr|].
      intros p seg Hin Hall%grace_entries_phase.
      eapply Forall_impl; [exact Hall|].
      intros e [H1 H2]. split; [by apply grace_phase_cleans|].
      exists p. split; [done|]. destruct Hpre as [k ->].
      apply elem_of_app. by left.
Qed.

Lemma startup_log argv st st1 r :
  startup os argv st = (st1, r) →
  procs st1 = procs st
  ∧ ((∃ args, r = Return args ∧ events st1 = events st
        ∧ environ st1 = environ (_load_dotenv os ".env" st).1
        ∧ (_load_dotenv os ".env" st).2 = Return tt
        ∧ exit_option argv = None
        ∧ twitch args = mentions Twitch argv
        ∧ wikimedia args = mentions Wikimedia argv)
     ∨ (∃ e, r = Raise e
        ∧ (events st1 = events st
           ∨ ∃ x, prints x = true ∧ events st1 = events st ++ [x]))).
Proof.
  unfold startup, parse_args, bind. rewrite parse_from_spec.
  destruct (exit_option argv) as [x|] eqn:Hexit.
  - intros [= <- <-]. split; [done|]. right. eexists. split; [done|].
    right. exists x. split; [|done].
    by destruct (exit_option_prints _ _ Hexit) as [-> | ->].
  - destruct (load_dotenv_spec os ".env" st)
      as (s & o & done & rest & Hrun & Hp & He & _).
    rewrite Hrun. destruct o as [[]|e]; intros [= <- <-].
    + split; [done|]. left. eexists. by repeat split.
    + split; [done|]. right. exists e. split; [done | by left].
Qed.

Lemma wanted_requested argv args :
  twitch args = mentions Twitch argv →
  wikimedia args = mentions Wikimedia argv →
  wanted args = requested_scripts argv.
Proof. unfold wanted, requested_scripts. by intros -> ->. Qed.

Local Ltac phases_ok :=
  unfold phases; split_and!;
  first [ done | by repeat constructor | by exists [] ].

Lemma main_log argv st st' r :
  main os argv st = (st', r) →
  ∃ pre sp ws cl,
    events st' = events st ++ pre ++ sp ++ ws ++ cl
    ∧ phases os argv st pre sp ws cl
    ∧ outcome argv pre sp ws cl r.
Proof.
  intros [(e & Hs & ->) | (st1 & args & Hs & Hrest)]%main_run.
  - (* start-up raised *)
    destruct (startup_log _ _ _ _ Hs) as (_ & [(a & ? & _) | (e' & _ & Hev)]);
      [done|].
    destruct Hev as [Hev | (x & Hx & Hev)].
    + exists [], [], [], []. rewrite Hev, !app_nil_r.
      split; [done|]. split; [|by left].
      unfold phases; split_and!; try done. by exists (requested_scripts argv).
    + exists [x], [], [], []. rewrite Hev.
      split; [done|]. split; [|by left].
      unfold phases; split_and!; try done; try (by repeat constructor).
      by exists (requested_scripts argv).
  - destruct (startup_log _ _ _ _ Hs)
      as (Hp1 & [(a & [= <-] & Hev1 & Henv1 & Hload & _ & Ht & Hw)
                | (? & ? & _)]);
      [|done].
    pose proof (wanted_requested _ _ Ht Hw) as Hwanted.
    destruct Hrest as [(Ht0 & Hw0 & -> & ->) | (Hflag & st2 & rs & Hsp & Hrest)].
    + (* nothing requested *)
      exists [EvPrintHelp Stderr], [], [], []. simpl. rewrite Hev1.
      split; [done|].
      assert (Hnone : requested_scripts argv = []).
      { rewrite <- Hwanted. unfold wanted. by rewrite Ht0, Hw0. }
      split.
      * unfold phases; split_and!; try done; try (by repeat constructor).
        rewrite Hnone. by exists [].
      * left. by repeat split.
    + destruct (spawn_requested_log _ _ _ _ Hsp)
        as (He2 & sp & Hev2 & Hp2 & Hall & Hpre & Hrs).
      simpl in He2, Hev2, Hp2, Hall. rewrite Hwanted in Hpre, Hrs.
      rewrite Henv1 in Hall. rewrite Hev1 in Hev2.
      assert (Hsome : requested_scripts argv ≠ []).
      { rewrite <- Hwanted. unfold wanted.
        by destruct (twitch args), (wikimedia args). }
      destruct rs as [[]|e].
      * (* all spawned *)
        destruct Hrest as (st3 & rw & Hwl & Hrest).
        destruct (wait_loop_log _ _ _ _ _ Hwl)
          as (He3 & Hp3 & ws & Hev3 & Hws & Hrw).
        rewrite Hp2 in Hws. rewrite Hev2 in Hev3.
        destruct Hrs as (Hscripts & Hlen & Hint).
        destruct rw as [c|e].
        -- destruct Hrest as [-> ->]. destruct Hrw as (-> & Hcodes & Hintw).
           exists [], sp, ws, []. simpl. rewrite app_nil_r, Hev3, <- app_assoc.
           split; [done|]. split; [phases_ok|].
           right. right. rewrite Hp2 in Hcodes. simpl in Hcodes.
           unfold saw_interrupt in *. rewrite existsb_app, Hint, Hintw.
           repeat split; try done. congruence.
        -- destruct (is_KeyboardInterrupt e) eqn:Hki.
           ++ destruct (main_except_log _ _ _ Hrest)
                as (Hr & _ & _ & cl & Hev4 & Hcl).
              rewrite Hp3, Hp2 in Hcl. simpl in Hcl.
              exists [], sp, ws, cl. simpl.
              rewrite Hev4, Hev3, <- !app_assoc.
              split; [done|]. split; [phases_ok|].
              assert (Hsaw : saw_interrupt (sp ++ ws) = true).
              { unfold saw_interrupt in *.
                by rewrite existsb_app, Hrw, orb_true_r. }
              destruct Hr as [-> | (x & -> & Hx)]; simpl; auto.
           ++ destruct Hrest as [-> ->].
              exists [], sp, ws, []. simpl.
              rewrite app_nil_r, Hev3, <- app_assoc.
              split; [done|]. split; [phases_ok | by left].
      * destruct (is_KeyboardInterrupt e) eqn:Hki.
        -- destruct (main_except_log _ _ _ Hrest)
             as (Hr & _ & _ & cl & Hev4 & Hcl).
           rewrite Hp2 in Hcl. simpl in Hcl.
           exists [], sp, [], cl. simpl. rewrite Hev4, Hev2, <- app_assoc.
           split; [done|]. split; [phases_ok|].
           assert (Hsaw : saw_interrupt (sp ++ []) = true)
             by (rewrite app_nil_r; congruence).
           destruct Hr as [-> | (x & -> & Hx)]; simpl; auto.
        -- destruct Hrest as [-> ->].
           exists [], sp, [], []. simpl. rewrite !app_nil_r.
           split; [done|]. split; [phases_ok | by left].
Qed.

Lemma omap_nothing {A B} (f : A → option B) (l : list A) :
  Forall (λ x, f x = None) l → omap f l = [].
Proof. induction 1 as [|x l Hx _ IH]; simpl; [done|]. by rewrite Hx. Qed.

Lemma existsb_nothing {A} (f : A → bool) (l : list A) :
  Forall (λ x, f x = false) l → existsb f l = false.
Proof. induction 1 as [|x l Hx _ IH]; simpl; [done|]. by rewrite Hx. Qed.

(** What the four phases contribute to each reading of the log. *)
Lemma log_views argv st pre sp ws cl :
  phases os argv st pre sp ws cl →
  scripts_of (pre ++ sp ++ ws ++ cl) = scripts_of sp
  ∧ started (pre ++ sp ++ ws ++ cl) = started sp
  ∧ exit_codes (pre ++ sp ++ ws ++ cl) = exit_codes ws
  ∧ saw_interrupt (pre ++ sp ++ ws ++ cl) = saw_interrupt (sp ++ ws)
  ∧ Forall (λ e, cleans e = false) (pre ++ sp ++ ws).
Proof.
  intros (Hpre & Hsp & _ & _ & Hws & Hcl).
  assert (∀ e, prints e = true →
            scripts_of [e] = [] ∧ started [e] = [] ∧ exit_codes [e] = []
            ∧ saw_interrupt [e] = false ∧ cleans e = false) as Kpre
    by (by intros []).
  assert (∀ e, cleans e = true →
            scripts_of [e] = [] ∧ started [e] = [] ∧ exit_codes [e] = []
            ∧ saw_interrupt [e] = false) as Kcl
    by (by intros []).
  assert (∀ e, (∃ s o, e = EvPopen s (environ (_load_dotenv os ".env" st).1)
                         (negb (nt os)) o) →
            exit_codes [e] = [] ∧ cleans e = false) as Ksp
    by (by intros e (s & o & ->)).
  assert (∀ e, (∃ p o, e = EvWait p o ∧ p ∈ started sp) →
            scripts_of [e] = [] ∧ started [e] = [] ∧ cleans e = false) as Kws
    by (by intros e (p & o & -> & _)).
  assert (scripts_of pre = [] ∧ started pre = [] ∧ exit_codes pre = []
          ∧ saw_interrupt pre = false ∧ Forall (λ e, cleans e = false) pre)
    as (Hp1 & Hp2 & Hp3 & Hp4 & Hp5).
  { clear -Hpre Kpre. induction Hpre as [|e l He _ IH]; [by repeat split|].
    destruct (Kpre e He) as (K1 & K2 & K3 & K4 & K5).
    destruct IH as (I1 & I2 & I3 & I4 & I5).
    change (e :: l) with ([e] ++ l).
    unfold scripts_of, started, exit_codes, saw_interrupt in *.
    rewrite !omap_app, existsb_app, K1, K2, K3, K4, I1, I2, I3, I4.
    repeat split. by constructor. }
  assert (scripts_of cl = [] ∧ started cl = [] ∧ exit_codes cl = []
          ∧ saw_interrupt cl = false) as (Hc1 & Hc2 & Hc3 & Hc4).
  { clear -Hcl Kcl. induction Hcl as [|e l [He _] _ IH]; [by repeat split|].
    destruct (Kcl e He) as (K1 & K2 & K3 & K4).
    destruct IH as (I1 & I2 & I3 & I4).
    change (e :: l) with ([e] ++ l).
    unfold scripts_of, started, exit_codes, saw_interrupt in *.
    by rewrite !omap_app, existsb_app, K1, K2, K3, K4, I1, I2, I3, I4. }
  assert (exit_codes sp = [] ∧ Forall (λ e, cleans e = false) sp)
    as (Hs1 & Hs2).
  { clear -Hsp Ksp. induction Hsp as [|e l He _ IH]; [by repeat split|].
    destruct (Ksp e He) as (K1 & K2). destruct IH as (I1 & I2).
    change (e :: l) with ([e] ++ l). unfold exit_codes in *.
    rewrite omap_app, K1, I1. split; [done | by constructor]. }
  assert (scripts_of ws = [] ∧ started ws = []
          ∧ Forall (λ e, cleans e = false) ws) as (Hw1 & Hw2 & Hw3).
  { clear -Hws Kws. induction Hws as [|e l He _ IH]; [by repeat split|].
    destruct (Kws e He) as (K1 & K2 & K3). destruct IH as (I1 & I2 & I3).
    change (e :: l) with ([e] ++ l). unfold scripts_of, started in *.
    rewrite !omap_app, K1, K2, I1, I2. repeat split. by constructor. }
  unfold scripts_of, started, exit_codes, saw_interrupt in *.
  rewrite !omap_app, !existsb_app, Hp1, Hp2, Hp3, Hp4, Hc1, Hc2, Hc3, Hc4,
    Hs1, Hw1, Hw2.
  rewrite !app_nil_r, orb_false_r. repeat split.
  rewrite !Forall_app. by repeat split.
Qed.

Lemma aggregate_zero (rcs : list Z) :
  aggregate_result rcs = 0%Z → Forall (λ rc, rc = 0%Z) rcs.
Proof.
  induction rcs as [|rc rcs IH]; simpl; [constructor|].
  destruct (Z.eqb_spec rc 0) as [->|Hrc]; [|done].
  intros H. constructor; [done | by apply IH].
Qed.

Lemma forced_kill_forced p o : forced (forced_kill os p o) = Some p.
Proof. unfold forced_kill. by destruct (nt os). Qed.

Lemma forced_in_tail (l1 l2 before after : list event) e p :
  l1 ++ l2 = before ++ e :: after →
  Forall (λ x, forced x = None) l1 →
  forced e = Some p →
  ∃ b, before = l1 ++ b ∧ l2 = b ++ e :: after.
Proof.
  intros Heq Hall He. revert before Heq.
  induction Hall as [|x l1 Hx _ IH]; intros before Heq; simpl in *.
  - by exists before.
  - destruct before as [|b before]; simpl in Heq.
    + injection Heq as -> _. congruence.
    + injection Heq as -> Heq. destruct (IH _ Heq) as (b' & -> & ->).
      by exists b'.
Qed.

Lemma grace_kill_after_wait (ps : list pid) (grace : list (list event))
    (before after : list event) e p :
  Forall2 (grace_entries os) ps grace →
  concat grace = before ++ e :: after →
  forced e = Some p →
  ∃ before' x, before = before' ++ [EvWaitTimeout p 5 (Raise (Exc x))].
Proof.
  intros Hall. revert before.
  induction Hall as [|q seg ps grace Hseg _ IH]; intros before Heq He; simpl in *.
  - by destruct before.
  - destruct Hseg as [(rc & ->) | [(x & o & ->) | (y & _ & ->)]]; simpl in Heq.
    + destruct before as [|b before]; simpl in Heq.
      * injection Heq as <- _. done.
      * injection Heq as <- Heq. destruct (IH _ Heq He) as (b' & x & ->).
        by exists (EvWaitTimeout q 5 (Return rc) :: b'), x.
    + destruct before as [|b0 [|b1 before]]; simpl in Heq.
      * injection Heq as <- _. done.
      * injection Heq as <- <- _. rewrite forced_kill_forced in He.
        injection He as <-. by exists [], x.
      * injection Heq as <- <- Heq. destruct (IH _ Heq He) as (b' & z & ->).
        by eexists (_ :: _ :: b'), z.
    + destruct before as [|b before]; simpl in Heq.
      * injection Heq as <- _. done.
      * injection Heq as <- Heq. destruct (IH _ Heq He) as (b' & x & ->).
        by exists (EvWaitTimeout q 5 (Raise y) :: b'), x.
Qed.

Lemma stop_phase_not_forced e : stop_phase e = true → forced e = None.
Proof. destruct e as [| | | | |? []| | |]; by simpl. Qed.
End runs.

(* ================================================================== *)
(** * More about the supervisor *)
(* ================================================================== *)

(** X6. The first of [-h], [--help] and [--version] on the command line
    ends the run from inside [parse_args]: [main] prints what that option
    asks for - the help on the output stream, or the version - and leaves
    with status 0; the .env file is not read, the environment stays as it
    was, no child is spawned.  So [--version] prints the version when no
    [-h] or [--help] stands before it. *)
Theorem X6_first_exit_option (os : OS) (argv : list option_string)
    (st : state) (e : event) :
  exit_option argv = Some e →
  main os argv st = (log st e, Raise (SystemExit 0))
  ∧ (e = EvPrintHelp Stdout ∨ e = EvPrintVersion "AvicBotChat 2026.02").
Proof.
  intros H. split; [|by eapply exit_option_prints].
  unfold main, parse_args, bind. by rewrite parse_from_spec, H.
Qed.

Lemma X6_witness :
  main with_dotenv [Opt_Twitch; Opt_version; Opt_help] fresh
  = (State ∅ [] [EvPrintVersion "AvicBotChat 2026.02"], Raise (SystemExit 0)).
Proof.
  by destruct (X6_first_exit_option with_dotenv
                 [Opt_Twitch; Opt_version; Opt_help] fresh _ eq_refl) as [-> _].
Defined.

(** X7. Only the set of flags counts: two command lines without [-h],
    [--help] and [--version] that name the same children - in any order,
    spelling or number of repetitions - make [main] do the same thing. *)
Theorem X7_flags_as_a_set (os : OS) (argv argv' : list option_string)
    (st : state) :
  exit_option argv = None →
  exit_option argv' = None →
  mentions Twitch argv = mentions Twitch argv' →
  mentions Wikimedia argv = mentions Wikimedia argv' →
  main os argv st = main os argv' st.
Proof.
  intros Hv Hv' Ht Hw. unfold main, parse_args, bind.
  by rewrite !parse_from_spec, Hv, Hv', Ht, Hw.
Qed.

Lemma X7_witness :
  main both_exit [Opt_Twitch; Opt_wikimedia] fresh
  = main both_exit [Opt_Wikimedia; Opt_twitch; Opt_Twitch; Opt_wikimedia] fresh.
Proof. by apply X7_flags_as_a_set. Defined.

(** X8. Whatever happens in a run of [main], [Popen] is only called on the
    requested scripts, each at most once, [twitch.py] before
    [avicbotirc.py]; every child gets the environment exactly as the .env
    load left it, and a session of its own unless the platform is
    Windows. *)
Theorem X8_spawns (os : OS) (argv : list option_string) (st : state) :
  ∃ evs,
    events (main os argv st).1 = events st ++ evs
    ∧ scripts_of evs `prefix_of` requested_scripts argv
    ∧ ∀ s env b o, EvPopen s env b o ∈ evs →
        env = environ (_load_dotenv os ".env" st).1 ∧ b = negb (nt os).
Proof.
  destruct (main os argv st) as [st' r] eqn:Hrun.
  destruct (main_log os _ _ _ _ Hrun) as (pre & sp & ws & cl & Hev & Hph & _).
  destruct (log_views os _ _ _ _ _ _ Hph) as (Hscripts & _).
  exists (pre ++ sp ++ ws ++ cl). split; [done|].
  destruct Hph as (Hpre & Hsp & _ & Hprefix & Hws & Hcl).
  split; [by rewrite Hscripts|].
  intros s env b o Hin. rewrite !elem_of_app in Hin.
  destruct Hin as [Hin | [Hin | [Hin | Hin]]].
  - by apply (proj1 (Forall_forall _ _) Hpre) in Hin.
  - apply (proj1 (Forall_forall _ _) Hsp) in Hin as (s' & o' & [= -> -> -> ->]).
    done.
  - by apply (proj1 (Forall_forall _ _) Hws) in Hin as (p & o' & [=] & _).
  - by apply (proj1 (Forall_forall _ _) Hcl) in Hin as [[=] _].
Qed.

(** X9. [main] waits on, polls, signals and kills only processes it has
    started itself in the same run. *)
Theorem X9_only_own_children (os : OS) (argv : list option_string)
    (st : state) :
  ∃ evs,
    events (main os argv st).1 = events st ++ evs
    ∧ ∀ e p, e ∈ evs → target e = Some p → p ∈ started evs.
Proof.
  destruct (main os argv st) as [st' r] eqn:Hrun.
  destruct (main_log os _ _ _ _ Hrun) as (pre & sp & ws & cl & Hev & Hph & _).
  destruct (log_views os _ _ _ _ _ _ Hph) as (_ & Hstarted & _).
  exists (pre ++ sp ++ ws ++ cl). split; [done|]. rewrite Hstarted.
  destruct Hph as (Hpre & Hsp & _ & _ & Hws & Hcl).
  intros e p Hin Ht. rewrite !elem_of_app in Hin.
  destruct Hin as [Hin | [Hin | [Hin | Hin]]].
  - apply (proj1 (Forall_forall _ _) Hpre) in Hin. by destruct e.
  - apply (proj1 (Forall_forall _ _) Hsp) in Hin as (s' & o' & ->). done.
  - apply (proj1 (Forall_forall _ _) Hws) in Hin as (q & o' & -> & Hq).
    by injection Ht as <-.
  - apply (proj1 (Forall_forall _ _) Hcl) in Hin as (_ & q & Hq & Hin').
    congruence.
Qed.


(** X10. [main] has three ways to return a code, and the log tells which:
    2 with nothing but the help printed when no child was requested; 130
    when a blocking call was interrupted; otherwise every requested child
    was started and waited on, nothing was cleaned up, and the code is the
    first non-zero exit code, or 0. *)
Theorem X10_return_codes (os : OS) (argv : list option_string)
    (st st' : state) (rc : Z) :
  main os argv st = (st', Return rc) →
  ∃ evs,
    events st' = events st ++ evs
    ∧ ((requested_scripts argv = [] ∧ rc = 2%Z ∧ evs = [EvPrintHelp Stderr])
       ∨ (saw_interrupt evs = true ∧ rc = 130%Z)
       ∨ (saw_interrupt evs = false
          ∧ requested_scripts argv ≠ []
          ∧ scripts_of evs = requested_scripts argv
          ∧ length (started evs) = length (scripts_of evs)
          ∧ length (exit_codes evs) = length (started evs)
          ∧ Forall (λ e, cleans e = false) evs
          ∧ rc = aggregate_result (exit_codes evs))).
Proof.
  intros Hrun.
  destruct (main_log os _ _ _ _ Hrun) as (pre & sp & ws & cl & Hev & Hph & Hout).
  destruct (log_views os _ _ _ _ _ _ Hph)
    as (Hscripts & Hstarted & Hcodes & Hint & Hclean).
  exists (pre ++ sp ++ ws ++ cl). split; [done|].
  rewrite Hscripts, Hstarted, Hcodes, Hint.
  destruct Hout as [(Hnone & -> & -> & -> & -> & ->) | [[Hi ->] | Hall]].
  - by left.
  - right. by left.
  - right. right.
    destruct Hall as (-> & -> & Hi & Hsome & Hsc & Hlen & Hlen' & ->).
    rewrite !app_nil_r in *. simpl in Hclean.
    assert (length (scripts_of sp) = length sp) as Hsl.
    { destruct Hph as (_ & Hsp & _). clear -Hsp.
      induction Hsp as [|e l (s & o & ->) _ IH]; simpl; [done|]. by rewrite IH. }
    repeat split; try done; congruence.
Qed.

Lemma X10_witness :
  ∃ evs, events (main both_exit [Opt_Twitch; Opt_Wikimedia] fresh).1 = evs
    ∧ exit_codes evs = [0; 5]%Z ∧ saw_interrupt evs = false.
Proof.
  destruct (X10_return_codes both_exit [Opt_Twitch; Opt_Wikimedia] fresh
              _ 5%Z eq_refl) as (evs & Hev & _).
  eexists. split; [reflexivity|]. by split.
Defined.

(** X11. Exit status 0 means success: if [main] returns 0 then at least
    one child was requested, every requested child was started and waited
    on, each of them exited with 0, and nothing was signalled or killed. *)
Theorem X11_zero_means_all_succeeded (os : OS) (argv : list option_string)
    (st st' : state) :
  main os argv st = (st', Return 0%Z) →
  ∃ evs,
    events st' = events st ++ evs
    ∧ requested_scripts argv ≠ []
    ∧ scripts_of evs = requested_scripts argv
    ∧ length (started evs) = length (scripts_of evs)
    ∧ length (exit_codes evs) = length (started evs)
    ∧ Forall (λ rc, rc = 0%Z) (exit_codes evs)
    ∧ Forall (λ e, cleans e = false) evs.
Proof.
  intros Hrun.
  destruct (main_log os _ _ _ _ Hrun) as (pre & sp & ws & cl & Hev & Hph & Hout).
  destruct (log_views os _ _ _ _ _ _ Hph)
    as (Hscripts & Hstarted & Hcodes & Hint & Hclean).
  exists (pre ++ sp ++ ws ++ cl). split; [done|].
  rewrite Hscripts, Hstarted, Hcodes.
  destruct Hout as [(_ & [=] & _) | [[_ [=]] | Hall]].
  destruct Hall as (-> & -> & Hi & Hsome & Hsc & Hlen & Hlen' & Hzero).
  rewrite !app_nil_r in *. simpl in Hclean.
  assert (length (scripts_of sp) = length sp) as Hsl.
  { destruct Hph as (_ & Hsp & _). clear -Hsp.
    induction Hsp as [|e l (s & o & ->) _ IH]; simpl; [done|]. by rewrite IH. }
  repeat split; try done; try congruence.
  apply aggregate_zero. by symmetry.
Qed.

Lemma X11_witness :
  ∃ evs, events (main with_dotenv [Opt_twitch] fresh).1 = evs
    ∧ exit_codes evs = [0%Z].
Proof.
  destruct (X11_zero_means_all_succeeded with_dotenv [Opt_twitch] fresh
              _ eq_refl) as (evs & Hev & _).
  eexists. split; [reflexivity|]. reflexivity.
Defined.

(** X12. An interrupt that arrives while the children are being spawned is
    handled like one that arrives while waiting: the children whose
    [Popen] call had returned - those in [procs] - go through the
    termination path, the call that was interrupted has added nothing to
    [procs], no further script is started, and [main] returns 130 unless a
    wait of the handler is cut short in turn. *)
Theorem X12_interrupt_while_spawning (os : OS) (argv : list option_string)
    (st st1 st2 : state) (args : Namespace) :
  startup os argv st = (st1, Return args) →
  spawn_requested os args (set_procs st1 []) = (st2, Raise KeyboardInterrupt) →
  ∃ st4 r sp,
    main os argv st = (st4, r)
    ∧ events st2 = events st ++ sp
    ∧ procs st2 = started sp
    ∧ drained os (started sp) (events st2) (events st4) r
    ∧ (grace_uninterrupted os → r = Return 130%Z)
    ∧ ∀ e, e ∈ events st4 → e ∈ events st2 ∨ spawns e = false.
Proof.
  intros Hs Hsp.
  destruct (startup_returns os _ _ _ _ Hs) as (Hev1 & _).
  destruct (spawn_requested_log os _ _ _ _ Hsp) as (_ & sp & Hev2 & Hp2 & _).
  simpl in Hev2, Hp2. rewrite Hev1 in Hev2.
  rewrite main_after_startup, Hs.
  destruct (negb (twitch args) && negb (wikimedia args)) eqn:Hflags.
  { apply andb_prop in Hflags as [Ht%negb_true_iff Hw%negb_true_iff].
    by rewrite (spawn_requested_none os _ _ Ht Hw) in Hsp. }
  unfold try_except. rewrite main_try_after_spawn, Hsp. simpl.
  destruct (main_except_spec os st2) as (st4 & r & Hh & _ & _ & Hdr).
  destruct (main_except_log os _ _ _ Hh) as (_ & _ & _ & cl & Hev4 & Hcl).
  exists st4, r, sp. rewrite Hh, <- Hp2. repeat split; try done.
  - intros Hnone. by eapply drained_uninterrupted.
  - intros e. rewrite Hev4, elem_of_app. intros [?|Hin]; [by left|]. right.
    apply (proj1 (Forall_forall _ _) Hcl) in Hin as [Hc _]. by destruct e.
Qed.

Lemma X12_witness :
  main interrupted_spawn [Opt_Twitch; Opt_Wikimedia] fresh
  = (State ∅ [7%nat]
       [EvPopen "twitch.py" ∅ true (Return 7%nat);
        EvPopen "avicbotirc.py" ∅ true (Raise KeyboardInterrupt);
        EvPoll 7%nat (Return None); EvKillpg 7%nat SIGTERM (Return tt);
        EvWaitTimeout 7%nat 5%Z (Return 0%Z)],
     Return 130%Z).
Proof.
  edestruct (X12_interrupt_while_spawning interrupted_spawn
               [Opt_Twitch; Opt_Wikimedia] fresh)
    as (st4 & r & sp & Hrun & _); reflexivity.
Defined.

(** X13. Children are signalled only on the interrupt path: if a run of
    [main] polled, signalled, timed-waited on or killed anything, then a
    blocking call of the [try] block was interrupted, and [main] returned
    130 or ended in what cut a wait of the handler short - never in an
    [Exception].  So a run that ends in an [Exception], or returns another
    code, has cleaned up nothing. *)
Theorem X13_cleanup_only_when_interrupted (os : OS)
    (argv : list option_string) (st st' : state)
    (r : result BaseException Z) (evs : list event) (e : event) :
  main os argv st = (st', r) →
  events st' = events st ++ evs →
  e ∈ evs → cleans e = true →
  saw_interrupt evs = true
  ∧ (r = Return 130%Z ∨ ∃ x, r = Raise x ∧ is_Exception x = false).
Proof.
  intros Hrun Hevs Hin Hc.
  destruct (main_log os _ _ _ _ Hrun) as (pre & sp & ws & cl & Hev & Hph & Hout).
  destruct (log_views os _ _ _ _ _ _ Hph) as (_ & _ & _ & Hint & Hclean).
  rewrite Hev in Hevs. apply app_inv_head in Hevs. subst evs.
  assert (Hcl : cl ≠ []).
  { intros ->. rewrite !app_nil_r in Hin.
    apply (proj1 (Forall_forall _ _) Hclean) in Hin. congruence. }
  rewrite Hint. destruct r as [rc|x]; simpl in Hout.
  - destruct Hout as [(_ & _ & _ & _ & _ & ?) | [[Hi ->] | (_ & ? & _)]];
      try done. auto.
  - destruct Hout as [? | [Hi Hx]]; [done|]. split; [done|]. right. by exists x.
Qed.

Lemma X13_witness :
  (main interrupted [Opt_Twitch; Opt_Wikimedia] fresh).2 = Return 130%Z
  ∨ ∃ x, (main interrupted [Opt_Twitch; Opt_Wikimedia] fresh).2 = Raise x
         ∧ is_Exception x = false.
Proof.
  destruct (main interrupted [Opt_Twitch; Opt_Wikimedia] fresh) as [st' r] eqn:Hrun.
  eapply (X13_cleanup_only_when_interrupted interrupted _ fresh st' r
            (events st') (EvPoll 0%nat (Return None)) Hrun).
  - done.
  - injection Hrun as <- _. simpl. do 4 right. by left.
  - done.
Defined.

(** X14. [_terminate] always returns, and what it does hangs on the poll:
    a child that has already exited is not signalled at all; a running
    child gets one request to stop (its process group on POSIX, the
    process on Windows) and, only if that request fails, one call of
    [proc.terminate()]; when the poll itself fails, [proc.terminate()] is
    still tried once. *)
Theorem X14_terminate_falls_back (os : OS) (p : pid) (st : state) :
  ∃ st' seg,
    _terminate os p st = (st', Return tt)
    ∧ events st' = events st ++ EvPoll p (poll_ os (events st) p) :: seg
    ∧ match poll_ os (events st) p with
      | Return (Some _) => seg = []
      | Return None =>
          seg = [stop_request os p (Return tt)]
          ∨ ∃ x o, seg = [stop_request os p (Raise x); EvTerminate p o]
      | Raise _ => ∃ o, seg = [EvTerminate p o]
      end.
Proof.
  unfold _terminate, poll, terminate, killpg, stop_request.
  unfold try_except, bind, call, ret, raise, log. simpl.
  repeat (case_match; simplify_eq/=);
    repeat match goal with a : unit |- _ => destruct a end;
    eexists _, _; (split; [reflexivity|]); simpl;
    rewrite <- ?app_assoc; simpl; (split; [reflexivity|]); eauto.
Qed.

Lemma X14_witness :
  _terminate stubborn_nt 3%nat fresh
  = (State ∅ []
       [EvPoll 3%nat (Return None);
        EvTerminate 3%nat (Raise PermissionError);
        EvTerminate 3%nat (Raise PermissionError)],
     Return tt).
Proof.
  destruct (X14_terminate_falls_back stubborn_nt 3%nat fresh)
    as (st' & seg & Hrun & _).
  reflexivity.
Defined.

(** X15. The handler works in two rounds.  First it polls every child
    once, in the order of [procs], logging nothing but polls and requests to
    stop; only then come the timed waits, one of 5 seconds per child, in
    the same order, with nothing but forced kills in between.  The second
    round reaches every child when the handler returns; when a wait is cut
    short it ends with that wait, and the children after that one get
    neither a wait nor a kill. *)
Theorem X15_stop_round_then_grace_round (os : OS) (st : state) :
  ∃ st' r req grace done,
    main_except os st = (st', r)
    ∧ events st' = events st ++ req ++ grace
    ∧ Forall (λ e, stop_phase e = true) req
    ∧ polled req = procs st
    ∧ Forall (λ e, grace_phase e = true) grace
    ∧ done `prefix_of` procs st
    ∧ grace_waits grace = (λ p, (p, 5%Z)) <$> done
    ∧ (∀ e p, e ∈ grace → target e = Some p → p ∈ done)
    ∧ match r with
      | Return rc => rc = 130%Z ∧ done = procs st
      | Raise x =>
          is_Exception x = false
          ∧ ∃ q grace', grace = grace' ++ [EvWaitTimeout q 5 (Raise x)]
      end.
Proof.
  destruct (main_except_shape os st)
    as (st' & r & req & done & grace & Hrun & _ & _ & Hev & Hreq & Hpre & Hgr
        & Hend).
  exists st', r, (concat req), (concat grace), done.
  split; [done|]. split; [done|].
  split; [|split; [|split; [|split; [done|split; [|split]]]]].
  - eapply Forall2_concat; [exact Hreq|].
    intros p seg _ [_ Hall]. eapply Forall_impl; [exact Hall|]. by intros e [].
  - clear -Hreq. induction Hreq as [|p seg ps req [Hp _] _ IH]; [done|].
    simpl. unfold polled in *. by rewrite omap_app, Hp, IH.
  - eapply Forall2_concat; [exact Hgr|].
    intros p seg _ Hall%grace_entries_phase.
    eapply Forall_impl; [exact Hall|]. by intros e [].
  - clear -Hgr. induction Hgr as [|p seg ps grace Hseg _ IH]; [done|].
    simpl. unfold grace_waits in *. rewrite omap_app, IH.
    destruct Hseg as [(rc & ->) | [(x & o & ->) | (y & _ & ->)]]; simpl;
      [done| |done].
    unfold forced_kill. by destruct (nt os).
  - assert (Hall : Forall (λ e, ∃ p, target e = Some p ∧ p ∈ done)
                     (concat grace)).
    { eapply Forall2_concat; [exact Hgr|].
      intros p seg Hin Hall%grace_entries_phase.
      eapply Forall_impl; [exact Hall|]. intros e [_ He]. eauto. }
    intros e p Hin Ht.
    apply (proj1 (Forall_forall _ _) Hall) in Hin as (q & Hq & Hin).
    congruence.
  - destruct r as [rc|x]; [done|]. destruct Hend as (Hx & q & grace' & ->).
    split; [done|]. exists q, (concat grace').
    by rewrite concat_app.
Qed.

Lemma X15_witness :
  main_except interrupted_twice (State ∅ [0; 1]%nat [])
  = (State ∅ [0; 1]%nat
       [EvPoll 0%nat (Return None); EvKillpg 0%nat SIGTERM (Return tt);
        EvPoll 1%nat (Return None); EvKillpg 1%nat SIGTERM (Return tt);
        EvWaitTimeout 0%nat 5%Z (Raise KeyboardInterrupt)],
     Raise KeyboardInterrupt).
Proof.
  destruct (X15_stop_round_then_grace_round interrupted_twice
              (State ∅ [0; 1]%nat []))
    as (st' & r & req & grace & done & Hrun & _).
  reflexivity.
Defined.

(** X16. A child is killed by force only right after its own wait of 5
    seconds has failed with an [Exception]: in what the handler logs, the
    entry before a forced kill of [p] is always that failed timed wait on
    [p]. *)
Theorem X16_kill_follows_failed_wait (os : OS) (st : state)
    (before after : list event) (e : event) (p : pid) :
  events (main_except os st).1 = events st ++ before ++ e :: after →
  forced e = Some p →
  ∃ before' x, before = before' ++ [EvWaitTimeout p 5 (Raise (Exc x))].
Proof.
  destruct (main_except_shape os st)
    as (st' & r & req & done & grace & -> & _ & _ & Hev & Hreq & _ & Hgr & _).
  simpl. rewrite Hev. intros Heq%app_inv_head He.
  destruct (forced_in_tail _ _ _ _ _ p Heq) as (b & -> & Hgrace); [|done|].
  - eapply Forall2_concat; [exact Hreq|].
    intros q seg _ [_ Hall]. eapply Forall_impl; [exact Hall|].
    intros x [Hx _]. by apply stop_phase_not_forced.
  - destruct (grace_kill_after_wait os _ _ _ _ _ _ Hgr Hgrace He)
      as (b' & x & ->).
    exists (concat req ++ b'), x. by rewrite app_assoc.
Qed.

Lemma X16_witness :
  ∃ before' x,
    [EvPoll 0%nat (Return None); EvKillpg 0%nat SIGTERM (Return tt);
     EvPoll 1%nat (Return None); EvKillpg 1%nat SIGTERM (Return tt);
     EvWaitTimeout 0%nat 5%Z (Return (-15)%Z);
     EvWaitTimeout 1%nat 5%Z (Raise (Exc TimeoutExpired))]
    = before' ++ [EvWaitTimeout 1%nat 5%Z (Raise (Exc x))].
Proof.
  by apply (X16_kill_follows_failed_wait interrupted (State ∅ [0; 1]%nat [])
              _ [] (EvKillpg 1%nat SIGKILL (Raise ProcessLookupError)) 1%nat).
Defined.


